(** * Geohash codec: a shallow embedding of [geohash.py] and its properties

    The Python class [Geohash] is embedded function by function.

    - Python integers are [Z]; [//] is [Z.div] (both floor), [<<], [>>], [|]
      and [&] are [Z.shiftl], [Z.shiftr], [Z.lor] and [Z.land].  Every shift
      count of the source lies inside a [range] that keeps it non-negative.
    - Coordinates are rationals ([Q]).  The only arithmetic the codec performs
      on them is halving sums of interval bounds that are integer multiples
      of 45/2^28, adding or subtracting a cell size of that form, and
      comparing; every such operation is exact on IEEE doubles (the operands
      need fewer than 53 significant bits), so the rational model computes
      what the Python code computes on any finite input.
    - A Python [str] is a [string]; inside the functions it is the list of
      its characters, as iterating and indexing it in the source see it.
    - [raise ValueError(...)] and the implicit [IndexError] of sequence
      indexing are values of [exn]; a function that can raise returns
      [result].
    - [for] loops are folds over the list that [range] produces. *)

From Stdlib Require Import QArith Qabs ZArith List String Ascii Lia Lqa Bool.
Import ListNotations.

Local Open Scope Z_scope.

(** ** Exceptions *)

(** The four [ValueError] messages of the source, and the message of
    [str.index]. *)
Inductive message : Set :=
| PrecisionOutOfRange   (* "Precision must be between 1 and 12" *)
| ValueOutOfBounds      (* "Value ... must be between ... and ..." *)
| LengthMismatch        (* "Geohash length ... doesn't match precision ..." *)
| InvalidCharacter      (* "Invalid character in geohash" *)
| SubstringNotFound.    (* raised by str.index *)

Inductive exn : Set :=
| ValueError (m : message)
| IndexError.

Inductive result (A : Type) : Type :=
| Ok (a : A)
| Raise (e : exn).

Arguments Ok {A} a.
Arguments Raise {A} e.

Definition bind {A B} (m : result A) (k : A -> result B) : result B :=
  match m with
  | Ok a => k a
  | Raise e => Raise e
  end.

Notation "x <- m ;; k" := (bind m (fun x => k))
  (at level 61, m at next level, right associativity).

(** A [for] loop whose body may raise: the first exception leaves the loop. *)
Fixpoint for_each {S X} (xs : list X) (body : S -> X -> result S) (s : S)
  : result S :=
  match xs with
  | [] => Ok s
  | x :: xs' => s' <- body s x ;; for_each xs' body s'
  end.

(** ** Python built-ins used by the source *)

Definition len {A} (l : list A) : Z := Z.of_nat (List.length l).

(** [range(n)] *)
Definition range (n : Z) : list Z := map Z.of_nat (seq 0 (Z.to_nat n)).

(** [range(0, stop, step)] for a positive [step] *)
Definition range_step (stop step : Z) : list Z :=
  map (fun k => k * step) (range ((stop + step - 1) / step)).

(** [l[i]]: a negative index counts from the end, anything else outside the
    sequence raises [IndexError]. *)
Definition getitem {A} (l : list A) (i : Z) : result A :=
  let j := if i <? 0 then i + len l else i in
  if j <? 0 then Raise IndexError
  else match nth_error l (Z.to_nat j) with
       | Some x => Ok x
       | None => Raise IndexError
       end.

(** [l[i:j]] for non-negative [i] and [j]: slices never raise. *)
Definition slice {A} (l : list A) (i j : Z) : list A :=
  firstn (Z.to_nat (j - i)) (skipn (Z.to_nat i) l).

(** [enumerate(l)] *)
Definition enumerate {A} (l : list A) : list (Z * A) :=
  combine (range (len l)) l.

(** [sum(l)] *)
Definition sum (l : list Z) : Z := fold_left Z.add l 0.

(** [c in s] for a one-character [c] *)
Definition contains (s : list ascii) (c : ascii) : bool :=
  existsb (Ascii.eqb c) s.

(** [s.index(c)]: the first position of [c], or [ValueError]. *)
Fixpoint index_from (s : list ascii) (c : ascii) (k : Z) : result Z :=
  match s with
  | [] => Raise (ValueError SubstringNotFound)
  | x :: s' => if Ascii.eqb x c then Ok k else index_from s' c (k + 1)
  end.

Definition index (s : list ascii) (c : ascii) : result Z := index_from s c 0.

(** [a > b] on rationals *)
Definition Qgt_bool (a b : Q) : bool := negb (Qle_bool a b).

Definition Qlt_bool (a b : Q) : bool := Qgt_bool b a.

(** ** The class [Geohash] *)

Definition BASE32 : list ascii :=
  list_ascii_of_string "0123456789bcdefghjkmnpqrstuvwxyz".

Record Geohash : Set := { precision : Z }.

(** [__init__(self, precision=5)]; [None] is the omitted argument. *)
Definition __init__ (precision : option Z) : result Geohash :=
  let precision := match precision with Some p => p | None => 5 end in
  if negb ((1 <=? precision) && (precision <=? 12))
  then Raise (ValueError PrecisionOutOfRange)
  else Ok {| precision := precision |}.

(** The body of the bisection loop of [_encode_bitstream]; the state is
    [(lo, hi, res)]. *)
Definition encode_step (value : Q) (st : Q * Q * list Z) (_ : Z)
  : Q * Q * list Z :=
  let '(lo, hi, res) := st in
  let mid := ((lo + hi) / 2)%Q in
  if Qgt_bool value mid then (mid, hi, res ++ [1]) else (lo, mid, res ++ [0]).

Definition _encode_bitstream (value lo hi : Q) (bit_length : Z)
  : result (list Z) :=
  if negb (Qle_bool lo value && Qle_bool value hi)
  then Raise (ValueError ValueOutOfBounds)
  else
    let '(_, _, res) :=
      fold_left (encode_step value) (range bit_length) (lo, hi, []) in
    Ok res.

(** The body of the interleaving loop of [encode]. *)
Definition interleave_step (lon_stream lat_stream : list Z)
  (lon_bits lat_bits : Z) (geohash_bits : list Z) (i : Z)
  : result (list Z) :=
  geohash_bits <-
    (if i <? lon_bits
     then b <- getitem lon_stream i ;; Ok (geohash_bits ++ [b])
     else Ok geohash_bits) ;;
  if i <? lat_bits
  then b <- getitem lat_stream i ;; Ok (geohash_bits ++ [b])
  else Ok geohash_bits.

(** The body of the base-32 loop of [encode]; [chars] is the list [result]
    of the source. *)
Definition base32_step (geohash_bits : list Z) (chars : list ascii) (i : Z)
  : result (list ascii) :=
  let chunk := slice geohash_bits i (i + 5) in
  let chunk := chunk ++ repeat 0 (Z.to_nat (5 - len chunk)) in
  let value :=
    sum (map (fun '(j, bit) => Z.shiftl bit (4 - j)) (enumerate chunk)) in
  c <- getitem BASE32 value ;;
  Ok (chars ++ [c]).

Definition encode (self : Geohash) (lat lon : Q) : result string :=
  let bit_length := precision self * 5 in
  let lat_bits := bit_length / 2 in
  let lon_bits := bit_length - lat_bits in
  lat_stream <- _encode_bitstream lat (-90) 90 lat_bits ;;
  lon_stream <- _encode_bitstream lon (-180) 180 lon_bits ;;
  geohash_bits <-
    for_each (range (Z.max lat_bits lon_bits))
      (interleave_step lon_stream lat_stream lon_bits lat_bits) [] ;;
  chars <-
    for_each (range_step bit_length 5) (base32_step geohash_bits) [] ;;
  Ok (string_of_list_ascii chars).

(** The body of the loop of [_decode_bitstream]; the state is
    [(min_val, max_val)]. *)
Definition decode_step (bitstream bit_count : Z) (st : Q * Q) (i : Z)
  : Q * Q :=
  let '(min_val, max_val) := st in
  let mid := ((min_val + max_val) / 2)%Q in
  if negb (Z.land (Z.shiftr bitstream (bit_count - 1 - i)) 1 =? 0)
  then (mid, max_val)
  else (min_val, mid).

Definition _decode_bitstream (bitstream bit_count : Z) (min_val max_val : Q)
  : Q :=
  let '(min_val, max_val) :=
    fold_left (decode_step bitstream bit_count) (range bit_count)
      (min_val, max_val) in
  ((min_val + max_val) / 2)%Q.

(** The body of the base-32 to integer loop of [decode]. *)
Definition value_step (geohash_value : Z) (char : ascii) : result Z :=
  k <- index BASE32 char ;;
  Ok (Z.lor (Z.shiftl geohash_value 5) k).

(** The body of the deinterleaving loop of [decode]; the state is
    [(lat_stream, lon_stream)]. *)
Definition deinterleave_step (geohash_value bit_length : Z) (st : Z * Z)
  (i : Z) : Z * Z :=
  let '(lat_stream, lon_stream) := st in
  let bit := Z.land (Z.shiftr geohash_value (bit_length - 1 - i)) 1 in
  if i mod 2 =? 0
  then (lat_stream, Z.lor (Z.shiftl lon_stream 1) bit)
  else (Z.lor (Z.shiftl lat_stream 1) bit, lon_stream).

Definition decode (self : Geohash) (geohash : string) : result (Q * Q) :=
  let geohash := list_ascii_of_string geohash in
  if negb (len geohash =? precision self)
  then Raise (ValueError LengthMismatch)
  else if negb (forallb (contains BASE32) geohash)
  then Raise (ValueError InvalidCharacter)
  else
    let bit_length := precision self * 5 in
    let lat_bits := bit_length / 2 in
    let lon_bits := bit_length - lat_bits in
    geohash_value <- for_each geohash value_step 0 ;;
    let '(lat_stream, lon_stream) :=
      fold_left (deinterleave_step geohash_value bit_length)
        (range bit_length) (0, 0) in
    let lat := _decode_bitstream lat_stream lat_bits (-90) 90 in
    let lon := _decode_bitstream lon_stream lon_bits (-180) 180 in
    Ok (lat, lon).

Definition _get_cell_size (precision : Z) : Q * Q :=
  let lat_bits := precision * 5 / 2 in
  let lon_bits := precision * 5 - lat_bits in
  let lat_err := (180 / inject_Z (Z.shiftl 1 lat_bits))%Q in
  let lon_err := (360 / inject_Z (Z.shiftl 1 lon_bits))%Q in
  (lat_err, lon_err).

(** A Python [dict] with string keys, in insertion order. *)
Definition dict (V : Type) : Type := list (string * V).

Fixpoint dict_set {V} (d : dict V) (k : string) (v : V) : dict V :=
  match d with
  | [] => [(k, v)]
  | (k', v') :: d' =>
      if String.eqb k' k then (k', v) :: d' else (k', v') :: dict_set d' k v
  end.

Fixpoint dict_get {V} (d : dict V) (k : string) : option V :=
  match d with
  | [] => None
  | (k', v') :: d' => if String.eqb k' k then Some v' else dict_get d' k
  end.

(** The clamp of the latitude in [get_neighbors]. *)
Definition clamp_lat (nlat : Q) : Q :=
  if Qgt_bool nlat 90 then 90%Q
  else if Qlt_bool nlat (-90) then (-90)%Q
  else nlat.

(** The wrap of the longitude in [get_neighbors]. *)
Definition wrap_lon (nlon : Q) : Q :=
  if Qgt_bool nlon 180 then (nlon - 360)%Q
  else if Qlt_bool nlon (-180) then (nlon + 360)%Q
  else nlon.

(** The [directions] table of [get_neighbors]. *)
Definition directions (lat_height lon_width : Q) : dict (Q * Q) :=
  [ ("n"%string, (lat_height, 0%Q));
    ("s"%string, ((- lat_height)%Q, 0%Q));
    ("e"%string, (0%Q, lon_width));
    ("w"%string, (0%Q, (- lon_width)%Q));
    ("ne"%string, (lat_height, lon_width));
    ("se"%string, ((- lat_height)%Q, lon_width));
    ("nw"%string, (lat_height, (- lon_width)%Q));
    ("sw"%string, ((- lat_height)%Q, (- lon_width)%Q)) ].

(** The point that [get_neighbors] re-encodes for one entry of the table. *)
Definition offset_point (center_lat center_lon dlat dlon : Q) : Q * Q :=
  let nlat := (center_lat + dlat)%Q in
  let nlon := (center_lon + dlon)%Q in
  (clamp_lat nlat, wrap_lon nlon).

(** The body of the loop of [get_neighbors]. *)
Definition neighbor_step (self : Geohash) (center_lat center_lon : Q)
  (neighbors : dict string) (entry : string * (Q * Q))
  : result (dict string) :=
  let '(direction, (dlat, dlon)) := entry in
  let '(nlat, nlon) := offset_point center_lat center_lon dlat dlon in
  code <- encode self nlat nlon ;;
  Ok (dict_set neighbors direction code).

Definition get_neighbors (self : Geohash) (geohash : string)
  : result (dict string) :=
  center <- decode self geohash ;;
  let '(center_lat, center_lon) := center in
  let '(lat_height, lon_width) :=
    _get_cell_size (len (list_ascii_of_string geohash)) in
  for_each (directions lat_height lon_width)
    (neighbor_step self center_lat center_lon) [].

(** * Definitions used by the statements and proofs *)

(** The two values [_encode_bitstream] appends to its result. *)
Definition is_bit (b : Z) : Prop := b = 0 \/ b = 1.

Definition bits01 (bits : list Z) : Prop := Forall is_bit bits.

(** The integer whose binary digits, most significant first, are [bits],
    after the digits of [acc]. *)
Definition horner (bits : list Z) (acc : Z) : Z :=
  fold_left (fun a b => 2 * a + b) bits acc.

(** The bits [_encode_bitstream] produces in [n] rounds. *)
Fixpoint bisect (n : nat) (value lo hi : Q) : list Z :=
  match n with
  | O => []
  | S n' =>
      let mid := ((lo + hi) / 2)%Q in
      if Qgt_bool value mid
      then 1 :: bisect n' value mid hi
      else 0 :: bisect n' value lo mid
  end.

(** The interval [_decode_bitstream] is left with after consuming [bits]. *)
Fixpoint narrow (bits : list Z) (lo hi : Q) : Q * Q :=
  match bits with
  | [] => (lo, hi)
  | b :: bits' =>
      let mid := ((lo + hi) / 2)%Q in
      if negb (b =? 0) then narrow bits' mid hi else narrow bits' lo mid
  end.

(** The value [_decode_bitstream] returns for its final interval. *)
Definition midpoint (cell : Q * Q) : Q := ((fst cell + snd cell) / 2)%Q.

(** The value [decode] reconstructs from the bits of [value]. *)
Definition cell_center (n : nat) (value lo hi : Q) : Q :=
  midpoint (narrow (bisect n value lo hi) lo hi).

(** [decode_step] as a function of the bit it reads. *)
Definition narrow_step (st : Q * Q) (b : Z) : Q * Q :=
  let '(lo, hi) := st in
  let mid := ((lo + hi) / 2)%Q in
  if negb (b =? 0) then (mid, hi) else (lo, mid).

(** The list the interleaving loop of [encode] builds: [xs] and [ys]
    alternate, [xs] first. *)
Fixpoint interleave (xs ys : list Z) : list Z :=
  match xs, ys with
  | x :: xs', y :: ys' => x :: y :: interleave xs' ys'
  | _, [] => xs
  | [], _ => ys
  end.

(** The elements at even positions (0, 2, 4, ...) *)
Fixpoint evens (l : list Z) : list Z :=
  match l with
  | [] => []
  | x :: l' => x :: match l' with [] => [] | _ :: l'' => evens l'' end
  end.

(** The elements at odd positions (1, 3, 5, ...) *)
Definition odds (l : list Z) : list Z := evens (tl l).

(** [deinterleave_step] as a function of the position and the bit it
    reads. *)
Definition deint_step (st : Z * Z) (ib : Z * Z) : Z * Z :=
  let '(lat_stream, lon_stream) := st in
  let '(i, bit) := ib in
  if i mod 2 =? 0
  then (lat_stream, Z.lor (Z.shiftl lon_stream 1) bit)
  else (Z.lor (Z.shiftl lat_stream 1) bit, lon_stream).

(** The value of a group of five bits, most significant first. *)
Definition val5 (b0 b1 b2 b3 b4 : Z) : Z :=
  16 * b0 + 8 * b1 + 4 * b2 + 2 * b3 + b4.

(** [BASE32[v]] for [v] from 0 to 31. *)
Definition base32_char (v : Z) : ascii := nth (Z.to_nat v) BASE32 "0"%char.

(** The characters of a bit list whose length is a multiple of five. *)
Fixpoint pack (bits : list Z) : list ascii :=
  match bits with
  | b0 :: b1 :: b2 :: b3 :: b4 :: rest =>
      base32_char (val5 b0 b1 b2 b3 b4) :: pack rest
  | _ => []
  end.

(** [lat_bits] and [lon_bits] of [encode] and [decode], as loop counts. *)
Definition lat_bits_of (p : Z) : nat := Z.to_nat (p * 5 / 2).

Definition lon_bits_of (p : Z) : nat := Z.to_nat (p * 5 - p * 5 / 2).

(** The interleaved bits of a coordinate at precision [p]. *)
Definition code_bits (p : Z) (lat lon : Q) : list Z :=
  interleave (bisect (lon_bits_of p) lon (-180) 180)
    (bisect (lat_bits_of p) lat (-90) 90).

(** The code [encode] returns for a coordinate in range. *)
Definition code_of (p : Z) (lat lon : Q) : string :=
  string_of_list_ascii (pack (code_bits p lat lon)).

(** The coordinates [_encode_bitstream] accepts. *)
Definition in_range (lat lon : Q) : Prop :=
  (-90 <= lat <= 90)%Q /\ (-180 <= lon <= 180)%Q.

(** A code [decode] accepts: of the configured length, over the alphabet. *)
Definition valid_code (self : Geohash) (code : string) : Prop :=
  len (list_ascii_of_string code) = precision self
  /\ forallb (contains BASE32) (list_ascii_of_string code) = true.

(** A codec [__init__] can return. *)
Definition valid_codec (self : Geohash) : Prop := 1 <= precision self <= 12.

Local Open Scope Q_scope.

(** 2^n as a rational *)
Definition pow2 (n : nat) : Q := inject_Z (2 ^ Z.of_nat n).

(** The table [get_neighbors] returns for a code whose centre is
    [(lat, lon)] and whose cell size is [(h, w)]. *)
Definition neighbor_table (p : Z) (lat lon h w : Q) : dict string :=
  [ ("n"%string, code_of p (clamp_lat (lat + h)) (wrap_lon (lon + 0)));
    ("s"%string, code_of p (clamp_lat (lat + - h)) (wrap_lon (lon + 0)));
    ("e"%string, code_of p (clamp_lat (lat + 0)) (wrap_lon (lon + w)));
    ("w"%string, code_of p (clamp_lat (lat + 0)) (wrap_lon (lon + - w)));
    ("ne"%string, code_of p (clamp_lat (lat + h)) (wrap_lon (lon + w)));
    ("se"%string, code_of p (clamp_lat (lat + - h)) (wrap_lon (lon + w)));
    ("nw"%string, code_of p (clamp_lat (lat + h)) (wrap_lon (lon + - w)));
    ("sw"%string, code_of p (clamp_lat (lat + - h)) (wrap_lon (lon + - w))) ].

(** The codec and the coordinate of the demonstration at the end of
    [geohash.py]: [Geohash(precision=6)] and the Willis Tower. *)
Definition geo : Geohash := {| precision := 6 |}.

Definition willis_lat : Q := 41878738 # 1000000.

Definition willis_lon : Q := -876359612 # 10000000.

(** The default codec, [Geohash()]. *)
Definition geo5 : Geohash := {| precision := 5 |}.

Local Close Scope Q_scope.

(** ** Definitions used by the further properties *)

(** The five bits, most significant first, of the position of a character in
    the alphabet; what the base-32 to integer loop of [decode] shifts in. *)
Definition char_bits (c : ascii) : list Z :=
  match index BASE32 c with
  | Ok k =>
      [ Z.land (Z.shiftr k 4) 1; Z.land (Z.shiftr k 3) 1;
        Z.land (Z.shiftr k 2) 1; Z.land (Z.shiftr k 1) 1; Z.land k 1 ]
  | Raise _ => []
  end.

(** The bit stream of a code. *)
Definition unpack (chars : list ascii) : list Z := flat_map char_bits chars.

(** A codec of precision 1. *)
Definition geo1 : Geohash := {| precision := 1 |}.

(** The neighbour of a code in one direction: the entry of the table of
    [get_neighbors], when there is one. *)
Definition neighbor (self : Geohash) (d : string) (code : string)
  : option string :=
  match get_neighbors self code with
  | Ok nbrs => dict_get nbrs d
  | Raise _ => None
  end.

(** The code reached from a code by a sequence of directions. *)
Definition walk (self : Geohash) (ds : list string) (code : string)
  : option string :=
  fold_left
    (fun c d => match c with Some c' => neighbor self d c' | None => None end)
    ds (Some code).

(** * Bit lists *)

(** The properties below are proved on lists of bits; this section relates
    the integer bit streams of [decode] to such lists. *)

Lemma horner_app (l1 l2 : list Z) (acc : Z) :
  horner (l1 ++ l2) acc = horner l2 (horner l1 acc).
Proof. apply fold_left_app. Qed.

Lemma horner_acc (l : list Z) (acc : Z) :
  horner l acc = acc * 2 ^ len l + horner l 0.
Proof.
  unfold len. revert acc.
  induction l as [|b l IH]; intros acc; cbn [horner fold_left List.length].
  - cbn. lia.
  - fold (horner l (2 * acc + b)). fold (horner l (2 * 0 + b)).
    rewrite (IH (2 * acc + b)), (IH (2 * 0 + b)).
    rewrite Nat2Z.inj_succ, Z.pow_succ_r by lia. ring.
Qed.

Lemma horner_bound (l : list Z) :
  bits01 l -> 0 <= horner l 0 < 2 ^ len l.
Proof.
  unfold len.
  induction l as [|b l IH] using rev_ind; intros Hl.
  - cbn. lia.
  - apply Forall_app in Hl as [Hl Hb]. inversion_clear Hb as [|? ? Hb' _].
    rewrite horner_app, length_app. cbn [horner fold_left List.length].
    rewrite Nat2Z.inj_add, Z.pow_add_r by lia.
    specialize (IH Hl). change (2 ^ Z.of_nat 1) with 2.
    destruct Hb'; subst b; lia.
Qed.

Lemma land_1_bit (b q : Z) : is_bit b -> Z.land (2 * q + b) 1 = b.
Proof.
  intros Hb. change 1 with (Z.ones 1) at 1. rewrite Z.land_ones by lia.
  change (2 ^ 1) with 2.
  rewrite Z.add_comm, Z.mul_comm, Z.mod_add by lia.
  destruct Hb; subst b; reflexivity.
Qed.

(** Reading bit [i] of an integer the way the source does returns the
    [i]-th element of the list the integer was built from. *)
Lemma bit_of_horner (bits : list Z) (i : nat) :
  bits01 bits -> (i < List.length bits)%nat ->
  Z.land (Z.shiftr (horner bits 0) (len bits - 1 - Z.of_nat i)) 1
  = nth i bits 0.
Proof.
  intros Hb Hi.
  destruct (nth_split bits 0 Hi) as (l1 & l2 & Hsplit & Hlen).
  set (b := nth i bits 0) in *. clearbody b.
  subst bits. apply Forall_app in Hb as [Hb1 Hb2].
  inversion_clear Hb2 as [|? ? Hbit Hb2'].
  unfold len. rewrite length_app. cbn [List.length].
  replace (Z.of_nat (List.length l1 + S (List.length l2)) - 1 - Z.of_nat i)
    with (len l2) by (unfold len; lia).
  rewrite horner_app. cbn [horner fold_left].
  fold (horner l2 (2 * horner l1 0 + b)). rewrite horner_acc.
  rewrite Z.shiftr_div_pow2 by (unfold len; lia).
  rewrite Z.div_add_l by (apply Z.pow_nonzero; unfold len; lia).
  rewrite Z.div_small by (apply horner_bound; assumption).
  rewrite Z.add_0_r. apply land_1_bit; assumption.
Qed.

Lemma lor_shiftl_low (a k n : Z) :
  0 <= n -> 0 <= k < 2 ^ n -> Z.lor (Z.shiftl a n) k = a * 2 ^ n + k.
Proof.
  intros Hn Hk. rewrite Z.shiftl_mul_pow2 by lia.
  assert (Hdisj : Z.land (a * 2 ^ n) k = 0).
  { apply Z.bits_inj'. intros m Hm. rewrite Z.land_spec, Z.bits_0.
    destruct (Z.ltb_spec m n).
    - rewrite Z.mul_pow2_bits_low by lia. reflexivity.
    - destruct (Z.eq_dec k 0) as [->|Hk0].
      + rewrite Z.bits_0. apply andb_false_r.
      + rewrite (Z.bits_above_log2 k m); [apply andb_false_r|lia|].
        apply Z.lt_le_trans with n; [|lia].
        apply Z.log2_lt_pow2; lia. }
  rewrite <- Z.lxor_lor by assumption.
  symmetry. apply Z.add_nocarry_lxor. assumption.
Qed.

Lemma lor_shiftl_1 (a b : Z) : is_bit b -> Z.lor (Z.shiftl a 1) b = 2 * a + b.
Proof.
  intros Hb. rewrite lor_shiftl_low; [change (2 ^ 1) with 2; lia|lia|].
  change (2 ^ 1) with 2. destruct Hb; lia.
Qed.

Lemma lor_shiftl_5 (a k : Z) :
  0 <= k < 32 -> Z.lor (Z.shiftl a 5) k = 32 * a + k.
Proof.
  intros Hk. rewrite lor_shiftl_low; change (2 ^ 5) with 32; lia.
Qed.

(** * Loops over [range] *)

Lemma range_of_nat (n : nat) : range (Z.of_nat n) = map Z.of_nat (seq 0 n).
Proof. unfold range. rewrite Nat2Z.id. reflexivity. Qed.

Lemma range_length (n : Z) : List.length (range n) = Z.to_nat n.
Proof. unfold range. rewrite length_map, length_seq. reflexivity. Qed.

Lemma fold_left_mapped {A B C} (f : A -> C -> A) (g : B -> C) (l : list B)
  (a : A) :
  fold_left (fun s x => f s (g x)) l a = fold_left f (map g l) a.
Proof. revert a. induction l; intros; cbn; auto. Qed.

(** A loop that reads element [i] of [bits] at step [i] visits [bits]. *)
Lemma map_range_nth (bits : list Z) (g : Z -> Z) :
  (forall i, (i < List.length bits)%nat -> g (Z.of_nat i) = nth i bits 0) ->
  map g (range (len bits)) = bits.
Proof.
  intros Hg. unfold len. rewrite range_of_nat, map_map.
  apply nth_ext with (d := g 0) (d' := 0).
  - rewrite length_map, length_seq. reflexivity.
  - intros i Hi. rewrite length_map, length_seq in Hi.
    rewrite (nth_indep _ _ (g (Z.of_nat 0)))
      by (rewrite length_map, length_seq; assumption).
    rewrite (map_nth (fun x => g (Z.of_nat x))), seq_nth by assumption.
    apply Hg. assumption.
Qed.

Lemma enumerate_range_nth (bits : list Z) (g : Z -> Z) :
  (forall i, (i < List.length bits)%nat -> g (Z.of_nat i) = nth i bits 0) ->
  map (fun i => (i, g i)) (range (len bits)) = enumerate bits.
Proof.
  intros Hg. unfold enumerate.
  rewrite <- (map_range_nth bits g Hg) at 3.
  induction (range (len bits)) as [|i l IH]; cbn; congruence.
Qed.

(** * Bisection on bit lists *)

Lemma bisect_length (n : nat) (v lo hi : Q) :
  List.length (bisect n v lo hi) = n.
Proof.
  revert lo hi. induction n as [|n IH]; intros lo hi; cbn; [reflexivity|].
  destruct (Qgt_bool v _); cbn; rewrite IH; reflexivity.
Qed.

Lemma bisect_bits01 (n : nat) (v lo hi : Q) : bits01 (bisect n v lo hi).
Proof.
  revert lo hi. induction n as [|n IH]; intros lo hi; cbn; [constructor|].
  destruct (Qgt_bool v _); constructor; try apply IH; [right|left]; reflexivity.
Qed.

Lemma encode_loop_bisect (v : Q) (l : list Z) (lo hi : Q) (res : list Z) :
  snd (fold_left (encode_step v) l (lo, hi, res))
  = res ++ bisect (List.length l) v lo hi.
Proof.
  revert lo hi res.
  induction l as [|i l IH]; intros lo hi res; cbn [fold_left List.length bisect].
  - cbn. rewrite app_nil_r. reflexivity.
  - unfold encode_step at 2.
    destruct (Qgt_bool v ((lo + hi) / 2)); rewrite IH, <- app_assoc;
      reflexivity.
Qed.

Lemma _encode_bitstream_ok (v lo hi : Q) (n : Z) :
  (lo <= v)%Q -> (v <= hi)%Q ->
  _encode_bitstream v lo hi n = Ok (bisect (Z.to_nat n) v lo hi).
Proof.
  intros Hlo Hhi. unfold _encode_bitstream.
  apply Qle_bool_iff in Hlo, Hhi. rewrite Hlo, Hhi. cbn [andb negb].
  pose proof (encode_loop_bisect v (range n) lo hi []) as H.
  destruct (fold_left _ _ _) as [[a b] res]. cbn in H.
  rewrite range_length in H. congruence.
Qed.

Lemma _encode_bitstream_out (v lo hi : Q) (n : Z) :
  ~ (lo <= v <= hi)%Q ->
  _encode_bitstream v lo hi n = Raise (ValueError ValueOutOfBounds).
Proof.
  intros H. unfold _encode_bitstream.
  destruct (Qle_bool lo v) eqn:E1; destruct (Qle_bool v hi) eqn:E2;
    try reflexivity.
  exfalso. apply H. split; apply Qle_bool_iff; assumption.
Qed.

Lemma fold_narrow_step (bits : list Z) (lo hi : Q) :
  fold_left narrow_step bits (lo, hi) = narrow bits lo hi.
Proof.
  revert lo hi. induction bits as [|b bits IH]; intros lo hi; cbn;
    [reflexivity|].
  destruct (negb (b =? 0)); apply IH.
Qed.

(** [_decode_bitstream] on the integer built from a bit list narrows the
    interval by that list. *)
Lemma _decode_bitstream_horner (bits : list Z) (lo hi : Q) :
  bits01 bits ->
  _decode_bitstream (horner bits 0) (len bits) lo hi
  = midpoint (narrow bits lo hi).
Proof.
  intros Hb. unfold _decode_bitstream.
  change (decode_step (horner bits 0) (len bits))
    with (fun st i => narrow_step st
            ((fun i => Z.land (Z.shiftr (horner bits 0) (len bits - 1 - i)) 1)
               i)).
  rewrite fold_left_mapped, map_range_nth, fold_narrow_step.
  - destruct (narrow bits lo hi); reflexivity.
  - intros i Hi. apply bit_of_horner; assumption.
Qed.

(** * Interleaving *)

Lemma evens_cons (x : Z) (l : list Z) : evens (x :: l) = x :: odds l.
Proof. destruct l; reflexivity. Qed.

Lemma odds_cons (x : Z) (l : list Z) : odds (x :: l) = evens l.
Proof. reflexivity. Qed.

Lemma interleave_bits01 (xs ys : list Z) :
  bits01 xs -> bits01 ys -> bits01 (interleave xs ys).
Proof.
  revert ys. induction xs as [|x xs IH]; intros ys Hx Hy.
  - destruct ys; assumption.
  - destruct ys as [|y ys]; [assumption|].
    inversion_clear Hx. inversion_clear Hy.
    cbn. constructor; [assumption|]. constructor; [assumption|].
    apply IH; assumption.
Qed.

Lemma interleave_length (xs ys : list Z) :
  List.length (interleave xs ys) = (List.length xs + List.length ys)%nat.
Proof.
  revert ys. induction xs as [|x xs IH]; intros ys.
  - destruct ys; reflexivity.
  - destruct ys as [|y ys]; cbn; [lia|]. rewrite IH. lia.
Qed.

Lemma deinterleave_interleave (xs ys : list Z) :
  (List.length ys <= List.length xs <= S (List.length ys))%nat ->
  evens (interleave xs ys) = xs /\ odds (interleave xs ys) = ys.
Proof.
  revert ys. induction xs as [|x xs IH]; intros ys Hlen.
  - destruct ys; cbn in *; [split; reflexivity|lia].
  - destruct ys as [|y ys].
    + destruct xs; cbn in *; [split; reflexivity|lia].
    + cbn [interleave]. rewrite evens_cons, !odds_cons, evens_cons.
      destruct (IH ys) as [He Ho]; [cbn in Hlen; lia|].
      rewrite He, Ho. split; reflexivity.
Qed.

Lemma of_nat_even (k : nat) : (Z.of_nat k mod 2 =? 0) = Nat.even k.
Proof.
  destruct (Nat.even k) eqn:E.
  - apply Nat.even_spec in E as [m ->]. apply Z.eqb_eq.
    rewrite Nat2Z.inj_mul, Z.mul_comm. apply Z.mod_mul. lia.
  - apply Z.eqb_neq.
    assert (Ho : Nat.odd k = true) by (unfold Nat.odd; rewrite E; reflexivity).
    apply Nat.odd_spec in Ho as [m ->].
    rewrite Nat2Z.inj_add, Nat2Z.inj_mul, Z.add_comm, Z.mul_comm.
    rewrite Z.mod_add by lia. cbn. lia.
Qed.

Lemma deinterleave_fold (bits : list Z) (k : nat) (la lo : Z) :
  bits01 bits ->
  fold_left deint_step
    (combine (map Z.of_nat (seq k (List.length bits))) bits) (la, lo)
  = if Nat.even k
    then (horner (odds bits) la, horner (evens bits) lo)
    else (horner (evens bits) la, horner (odds bits) lo).
Proof.
  intros Hb. revert k la lo.
  induction Hb as [|b bits Hbit Hb IH]; intros k la lo.
  - cbn. destruct (Nat.even k); reflexivity.
  - cbn [List.length seq map combine fold_left].
    unfold deint_step at 2. rewrite of_nat_even.
    rewrite evens_cons, odds_cons.
    destruct (Nat.even k) eqn:E; rewrite IH, Nat.even_succ, <- Nat.negb_even, E;
      cbn [negb]; rewrite lor_shiftl_1 by assumption; reflexivity.
Qed.

(** The deinterleaving loop of [decode], run on the integer built from
    [bits], splits [bits] by position parity. *)
Lemma deinterleave_loop (bits : list Z) :
  bits01 bits ->
  fold_left (deinterleave_step (horner bits 0) (len bits))
    (range (len bits)) (0, 0)
  = (horner (odds bits) 0, horner (evens bits) 0).
Proof.
  intros Hb.
  change (deinterleave_step (horner bits 0) (len bits))
    with (fun st i => deint_step st
            ((fun i => (i, Z.land (Z.shiftr (horner bits 0)
                                     (len bits - 1 - i)) 1)) i)).
  rewrite fold_left_mapped.
  rewrite (enumerate_range_nth bits
             (fun i => Z.land (Z.shiftr (horner bits 0) (len bits - 1 - i)) 1))
    by (intros i Hi; apply bit_of_horner; assumption).
  unfold enumerate, len. rewrite range_of_nat.
  apply (deinterleave_fold bits 0 0 0 Hb).
Qed.

Lemma nth_error_middle {A} (pre : list A) (x : A) (post : list A) :
  nth_error (pre ++ x :: post) (List.length pre) = Some x.
Proof. induction pre; cbn; auto. Qed.

Lemma getitem_middle {A} (pre : list A) (x : A) (post : list A) :
  getitem (pre ++ x :: post) (len pre) = Ok x.
Proof.
  unfold getitem, len.
  assert (H : (Z.of_nat (List.length pre) <? 0) = false) by (apply Z.ltb_ge; lia).
  rewrite H, H, Nat2Z.id, nth_error_middle. reflexivity.
Qed.

(** The interleaving loop of [encode] never indexes outside its streams and
    alternates them, longitude first. *)
Lemma interleave_loop_from (lon lat prelon prelat acc : list Z) :
  List.length prelon = List.length prelat ->
  (List.length lat <= List.length lon <= S (List.length lat))%nat ->
  for_each (map Z.of_nat (seq (List.length prelon) (List.length lon)))
    (interleave_step (prelon ++ lon) (prelat ++ lat)
       (len (prelon ++ lon)) (len (prelat ++ lat))) acc
  = Ok (acc ++ interleave lon lat).
Proof.
  revert lat prelon prelat acc.
  induction lon as [|x lon IH]; intros lat prelon prelat acc Hpre Hlen.
  - destruct lat; cbn in Hlen; [|lia]. cbn. rewrite app_nil_r. reflexivity.
  - cbn [List.length seq map for_each].
    unfold interleave_step at 1.
    assert (Hlt : (Z.of_nat (List.length prelon) <? len (prelon ++ x :: lon))
                  = true).
    { apply Z.ltb_lt. unfold len. rewrite length_app. cbn. lia. }
    rewrite Hlt. fold (len prelon). rewrite getitem_middle. cbn [bind].
    destruct lat as [|y lat].
    + destruct lon; cbn in Hlen; [|lia].
      rewrite app_nil_r.
      assert (Hge : (len prelon <? len prelat) = false).
      { apply Z.ltb_ge. unfold len. lia. }
      rewrite Hge. reflexivity.
    + assert (Hlt' : (len prelon <? len (prelat ++ y :: lat)) = true).
      { apply Z.ltb_lt. unfold len. rewrite length_app. cbn. lia. }
      rewrite Hlt'. unfold len at 1. rewrite Hpre. fold (len prelat).
      rewrite getitem_middle. cbn [bind].
      replace (prelon ++ x :: lon) with ((prelon ++ [x]) ++ lon)
        by (rewrite <- app_assoc; reflexivity).
      replace (prelat ++ y :: lat) with ((prelat ++ [y]) ++ lat)
        by (rewrite <- app_assoc; reflexivity).
      replace (S (List.length prelat)) with (List.length (prelon ++ [x]))
        by (rewrite length_app; cbn; lia).
      rewrite IH.
      * cbn [interleave]. rewrite <- !app_assoc. reflexivity.
      * rewrite !length_app. cbn. lia.
      * cbn in Hlen. lia.
Qed.

Lemma interleave_loop (lon lat : list Z) :
  (List.length lat <= List.length lon <= S (List.length lat))%nat ->
  for_each (range (Z.max (len lat) (len lon)))
    (interleave_step lon lat (len lon) (len lat)) []
  = Ok (interleave lon lat).
Proof.
  intros Hlen.
  replace (Z.max (len lat) (len lon)) with (len lon) by (unfold len; lia).
  unfold len at 1. rewrite range_of_nat.
  apply (interleave_loop_from lon lat [] [] []); [reflexivity|assumption].
Qed.

(** * Base-32 packing *)

Ltac split_bits :=
  repeat match goal with
    | H : is_bit ?b |- _ => destruct H; subst b
    end.

Ltac chunk5 bits Hlen Hb :=
  let b0 := fresh "b0" in let b1 := fresh "b1" in let b2 := fresh "b2" in
  let b3 := fresh "b3" in let b4 := fresh "b4" in
  destruct bits as [|b0 [|b1 [|b2 [|b3 [|b4 bits]]]]];
  try (cbn in Hlen; lia);
  let H0 := fresh "Hb0" in let H1 := fresh "Hb1" in let H2 := fresh "Hb2" in
  let H3 := fresh "Hb3" in let H4 := fresh "Hb4" in
  inversion Hb as [|? ? H0 Hb'0]; subst;
  inversion Hb'0 as [|? ? H1 Hb'1]; subst;
  inversion Hb'1 as [|? ? H2 Hb'2]; subst;
  inversion Hb'2 as [|? ? H3 Hb'3]; subst;
  inversion Hb'3 as [|? ? H4 Hb'4]; subst;
  clear Hb Hb'0 Hb'1 Hb'2 Hb'3; rename Hb'4 into Hb.

Lemma slice_chunk {A} (pre chunk rest : list A) (k : nat) :
  List.length pre = (5 * k)%nat -> List.length chunk = 5%nat ->
  slice (pre ++ chunk ++ rest) (Z.of_nat k * 5) (Z.of_nat k * 5 + 5) = chunk.
Proof.
  intros Hpre Hchunk. unfold slice.
  replace (Z.to_nat (Z.of_nat k * 5)) with (List.length pre) by lia.
  replace (Z.to_nat (Z.of_nat k * 5 + 5 - Z.of_nat k * 5)) with 5%nat by lia.
  rewrite skipn_app, skipn_all, Nat.sub_diag. cbn [skipn app].
  rewrite <- Hchunk, firstn_app, firstn_all, Nat.sub_diag.
  cbn [firstn]. apply app_nil_r.
Qed.

Lemma base32_step_chunk (pre rest : list Z) (b0 b1 b2 b3 b4 : Z)
  (chars : list ascii) (k : nat) :
  List.length pre = (5 * k)%nat ->
  is_bit b0 -> is_bit b1 -> is_bit b2 -> is_bit b3 -> is_bit b4 ->
  base32_step (pre ++ b0 :: b1 :: b2 :: b3 :: b4 :: rest) chars
    (Z.of_nat k * 5)
  = Ok (chars ++ [base32_char (val5 b0 b1 b2 b3 b4)]).
Proof.
  intros Hpre H0 H1 H2 H3 H4. unfold base32_step.
  change (b0 :: b1 :: b2 :: b3 :: b4 :: rest)
    with ([b0; b1; b2; b3; b4] ++ rest).
  rewrite (slice_chunk pre [b0; b1; b2; b3; b4] rest k Hpre eq_refl).
  split_bits; reflexivity.
Qed.

(** The base-32 loop of [encode] never indexes outside the alphabet and
    produces one character per group of five bits. *)
Lemma base32_loop_from (p : nat) (bits pre : list Z) (chars : list ascii)
  (k : nat) :
  List.length pre = (5 * k)%nat -> List.length bits = (5 * p)%nat ->
  bits01 bits ->
  for_each (map (fun i => i * 5) (map Z.of_nat (seq k p)))
    (base32_step (pre ++ bits)) chars
  = Ok (chars ++ pack bits).
Proof.
  revert bits pre chars k.
  induction p as [|p IH]; intros bits pre chars k Hpre Hlen Hb.
  - destruct bits; [|discriminate]. cbn. rewrite app_nil_r. reflexivity.
  - chunk5 bits Hlen Hb.
    cbn [seq map for_each].
    rewrite base32_step_chunk by assumption. cbn [bind].
    replace (pre ++ b0 :: b1 :: b2 :: b3 :: b4 :: bits)
      with ((pre ++ [b0; b1; b2; b3; b4]) ++ bits)
      by (rewrite <- app_assoc; reflexivity).
    rewrite IH.
    + cbn [pack]. rewrite <- app_assoc. reflexivity.
    + rewrite length_app. cbn. lia.
    + cbn in Hlen. lia.
    + assumption.
Qed.

Lemma range_step_5 (p : nat) :
  range_step (Z.of_nat p * 5) 5 = map (fun i => i * 5) (map Z.of_nat (seq 0 p)).
Proof.
  unfold range_step.
  replace ((Z.of_nat p * 5 + 5 - 1) / 5) with (Z.of_nat p).
  - rewrite range_of_nat. reflexivity.
  - apply Z.div_unique with 4; lia.
Qed.

Lemma base32_loop (p : nat) (bits : list Z) :
  List.length bits = (5 * p)%nat -> bits01 bits ->
  for_each (range_step (Z.of_nat p * 5) 5) (base32_step bits) []
  = Ok (pack bits).
Proof.
  intros Hlen Hb. rewrite range_step_5.
  apply (base32_loop_from p bits [] [] 0); [reflexivity|assumption..].
Qed.

Lemma pack_length (p : nat) (bits : list Z) :
  List.length bits = (5 * p)%nat -> List.length (pack bits) = p.
Proof.
  revert bits. induction p as [|p IH]; intros bits Hlen.
  - destruct bits; [reflexivity|discriminate].
  - destruct bits as [|b0 [|b1 [|b2 [|b3 [|b4 bits]]]]];
      try (cbn in Hlen; lia).
    cbn [pack List.length]. f_equal. apply IH. cbn in Hlen. lia.
Qed.

Lemma base32_char_in (b0 b1 b2 b3 b4 : Z) :
  is_bit b0 -> is_bit b1 -> is_bit b2 -> is_bit b3 -> is_bit b4 ->
  contains BASE32 (base32_char (val5 b0 b1 b2 b3 b4)) = true.
Proof. intros. split_bits; reflexivity. Qed.

Lemma pack_alphabet (p : nat) (bits : list Z) :
  List.length bits = (5 * p)%nat -> bits01 bits ->
  forallb (contains BASE32) (pack bits) = true.
Proof.
  revert bits. induction p as [|p IH]; intros bits Hlen Hb.
  - destruct bits; [reflexivity|discriminate].
  - chunk5 bits Hlen Hb. cbn [pack forallb].
    rewrite base32_char_in by assumption.
    apply IH; [cbn in Hlen; lia|assumption].
Qed.

Lemma value_step_char (v b0 b1 b2 b3 b4 : Z) :
  is_bit b0 -> is_bit b1 -> is_bit b2 -> is_bit b3 -> is_bit b4 ->
  value_step v (base32_char (val5 b0 b1 b2 b3 b4))
  = Ok (horner [b0; b1; b2; b3; b4] v).
Proof.
  intros. unfold value_step.
  assert (Hidx : index BASE32 (base32_char (val5 b0 b1 b2 b3 b4))
                 = Ok (val5 b0 b1 b2 b3 b4)) by (split_bits; reflexivity).
  rewrite Hidx. cbn [bind]. f_equal.
  rewrite lor_shiftl_5 by (unfold val5; split_bits; lia).
  unfold horner, val5. cbn [fold_left]. ring.
Qed.

(** The base-32 to integer loop of [decode] rebuilds the integer of the bits
    that were packed. *)
Lemma value_loop (p : nat) (bits : list Z) (v : Z) :
  List.length bits = (5 * p)%nat -> bits01 bits ->
  for_each (pack bits) value_step v = Ok (horner bits v).
Proof.
  revert bits v. induction p as [|p IH]; intros bits v Hlen Hb.
  - destruct bits; [reflexivity|discriminate].
  - chunk5 bits Hlen Hb. cbn [pack for_each].
    rewrite value_step_char by assumption. cbn [bind].
    rewrite IH; [|cbn in Hlen; lia|assumption].
    reflexivity.
Qed.

(** * Bisection: numeric properties *)

Local Open Scope Q_scope.

Ltac qlra := unfold Qdiv in *; change (/ 2) with (1 # 2) in *; lra.

Lemma Qgt_bool_true (a b : Q) : Qgt_bool a b = true <-> b < a.
Proof.
  unfold Qgt_bool. rewrite negb_true_iff. split.
  - intros H. apply Qnot_le_lt. intros Hle. apply Qle_bool_iff in Hle.
    congruence.
  - intros H. destruct (Qle_bool a b) eqn:E; [|reflexivity].
    apply Qle_bool_iff in E. lra.
Qed.

Lemma Qgt_bool_false (a b : Q) : Qgt_bool a b = false <-> a <= b.
Proof.
  unfold Qgt_bool. rewrite negb_false_iff. apply Qle_bool_iff.
Qed.

Lemma pow2_S (n : nat) : pow2 (S n) == 2 * pow2 n.
Proof.
  unfold pow2. rewrite Nat2Z.inj_succ, Z.pow_succ_r by lia.
  rewrite inject_Z_mult. reflexivity.
Qed.

Lemma pow2_ge_1 (n : nat) : 1 <= pow2 n.
Proof.
  unfold pow2. change 1 with (inject_Z 1). rewrite <- Zle_Qle.
  assert (0 < 2 ^ Z.of_nat n)%Z by (apply Z.pow_pos_nonneg; lia). lia.
Qed.

Lemma narrow_bounds (bits : list Z) (lo hi : Q) :
  lo <= hi ->
  lo <= fst (narrow bits lo hi)
  /\ fst (narrow bits lo hi) <= snd (narrow bits lo hi)
  /\ snd (narrow bits lo hi) <= hi.
Proof.
  revert lo hi. induction bits as [|b bits IH]; intros lo hi Hle.
  - cbn. lra.
  - cbn [narrow]. destruct (negb (b =? 0)%Z).
    + destruct (IH ((lo + hi) / 2) hi) as (H1 & H2 & H3); qlra.
    + destruct (IH lo ((lo + hi) / 2)) as (H1 & H2 & H3); qlra.
Qed.

Lemma narrow_strict (bits : list Z) (lo hi : Q) :
  lo < hi -> fst (narrow bits lo hi) < snd (narrow bits lo hi).
Proof.
  revert lo hi. induction bits as [|b bits IH]; intros lo hi Hlt.
  - assumption.
  - cbn [narrow]. destruct (negb (b =? 0)%Z); apply IH; qlra.
Qed.

(** Every round halves the interval. *)
Lemma narrow_width (bits : list Z) (lo hi : Q) :
  (snd (narrow bits lo hi) - fst (narrow bits lo hi))
  * pow2 (List.length bits) == hi - lo.
Proof.
  revert lo hi. induction bits as [|b bits IH]; intros lo hi.
  - cbn [narrow fst snd List.length]. change (pow2 0) with 1. ring.
  - cbn [narrow List.length]. rewrite pow2_S.
    destruct (negb (b =? 0)%Z).
    + specialize (IH ((lo + hi) / 2) hi).
      set (w := snd _ - fst _) in *.
      setoid_replace (w * (2 * pow2 (List.length bits)))
        with (2 * (w * pow2 (List.length bits))) by ring.
      rewrite IH. field.
    + specialize (IH lo ((lo + hi) / 2)).
      set (w := snd _ - fst _) in *.
      setoid_replace (w * (2 * pow2 (List.length bits)))
        with (2 * (w * pow2 (List.length bits))) by ring.
      rewrite IH. field.
Qed.

Lemma narrow_width_div (bits : list Z) (lo hi : Q) :
  snd (narrow bits lo hi) - fst (narrow bits lo hi)
  == (hi - lo) / pow2 (List.length bits).
Proof.
  rewrite <- (narrow_width bits lo hi).
  rewrite Qdiv_mult_l; [reflexivity|].
  pose proof (pow2_ge_1 (List.length bits)). lra.
Qed.

(** The interval [_encode_bitstream] ends with contains the value. *)
Lemma bisect_contains (n : nat) (v lo hi : Q) :
  lo <= v <= hi ->
  fst (narrow (bisect n v lo hi) lo hi) <= v
  /\ v <= snd (narrow (bisect n v lo hi) lo hi).
Proof.
  revert lo hi. induction n as [|n IH]; intros lo hi Hv.
  - cbn. lra.
  - cbn [bisect]. destruct (Qgt_bool v ((lo + hi) / 2)) eqn:E.
    + apply Qgt_bool_true in E. cbn [narrow Z.eqb negb]. apply IH. lra.
    + apply Qgt_bool_false in E. cbn [narrow Z.eqb negb]. apply IH. lra.
Qed.

(** A value strictly inside the cell of a bit list bisects to that list. *)
Lemma bisect_inside (bits : list Z) (c lo hi : Q) :
  bits01 bits -> lo < hi ->
  fst (narrow bits lo hi) < c -> c < snd (narrow bits lo hi) ->
  bisect (List.length bits) c lo hi = bits.
Proof.
  intros Hb. revert lo hi.
  induction Hb as [|b bits Hbit Hb IH]; intros lo hi Hlt Ha Hc.
  - reflexivity.
  - cbn [List.length bisect]. cbn [narrow] in Ha, Hc.
    destruct Hbit; subst b; cbn [Z.eqb negb] in Ha, Hc.
    + destruct (narrow_bounds bits lo ((lo + hi) / 2)) as (H1 & H2 & H3);
        [qlra|].
      assert (E : Qgt_bool c ((lo + hi) / 2) = false)
        by (apply Qgt_bool_false; lra).
      rewrite E. f_equal. apply IH; [qlra|assumption..].
    + destruct (narrow_bounds bits ((lo + hi) / 2) hi) as (H1 & H2 & H3);
        [qlra|].
      assert (E : Qgt_bool c ((lo + hi) / 2) = true)
        by (apply Qgt_bool_true; lra).
      rewrite E. f_equal. apply IH; [qlra|assumption..].
Qed.

Lemma midpoint_inside (cell : Q * Q) :
  fst cell < snd cell -> fst cell < midpoint cell /\ midpoint cell < snd cell.
Proof. unfold midpoint. intros H. qlra. Qed.

(** Bisecting the centre of a value's cell gives the bits of the value. *)
Lemma bisect_cell_center (n : nat) (v lo hi : Q) :
  lo < hi -> bisect n (cell_center n v lo hi) lo hi = bisect n v lo hi.
Proof.
  intros Hlt. unfold cell_center.
  destruct (midpoint_inside (narrow (bisect n v lo hi) lo hi)) as [H1 H2].
  - apply narrow_strict. assumption.
  - rewrite <- (bisect_length n v lo hi) at 1.
    apply bisect_inside; [apply bisect_bits01|assumption..].
Qed.

Lemma cell_center_range (n : nat) (v lo hi : Q) :
  lo <= hi -> lo <= cell_center n v lo hi <= hi.
Proof.
  intros Hle. unfold cell_center, midpoint.
  destruct (narrow_bounds (bisect n v lo hi) lo hi Hle) as (H1 & H2 & H3).
  qlra.
Qed.

(** The centre of a value's cell is within half the cell size of it. *)
Lemma cell_center_error (n : nat) (v lo hi : Q) :
  lo <= v <= hi ->
  Qabs (cell_center n v lo hi - v) <= (hi - lo) / pow2 n / 2.
Proof.
  intros Hv.
  pose proof (bisect_contains n v lo hi Hv) as [Ha Hb].
  pose proof (narrow_width_div (bisect n v lo hi) lo hi) as Hw.
  rewrite bisect_length in Hw.
  unfold cell_center, midpoint. apply Qabs_Qle_condition.
  set (a := fst _) in *. set (b := snd _) in *.
  set (w := (hi - lo) / pow2 n) in *. clearbody a b w.
  qlra.
Qed.

Lemma cell_size_nonneg (n : nat) (lo hi : Q) :
  lo <= hi -> 0 <= (hi - lo) / pow2 n <= hi - lo.
Proof.
  intros Hle. pose proof (pow2_ge_1 n) as Hp.
  split.
  - apply Qle_shift_div_l; lra.
  - apply Qle_shift_div_r; [lra|]. nra.
Qed.

(** A value at (or clamped to) the upper bound lies in the topmost cell. *)
Lemma bisect_top (n : nat) (v lo hi : Q) :
  lo < hi -> hi <= v -> snd (narrow (bisect n v lo hi) lo hi) = hi.
Proof.
  revert lo. induction n as [|n IH]; intros lo Hlt Hv.
  - reflexivity.
  - cbn [bisect].
    assert (E : Qgt_bool v ((lo + hi) / 2) = true)
      by (apply Qgt_bool_true; qlra).
    rewrite E. cbn [narrow Z.eqb negb]. apply IH; [qlra|assumption].
Qed.

Lemma cell_center_top (n : nat) (v lo hi : Q) :
  lo < hi -> hi <= v ->
  cell_center n v lo hi == hi - (hi - lo) / pow2 n / 2.
Proof.
  intros Hlt Hv.
  pose proof (narrow_width_div (bisect n v lo hi) lo hi) as Hw.
  rewrite bisect_length, bisect_top in Hw by assumption.
  unfold cell_center, midpoint. rewrite bisect_top by assumption.
  set (a := fst _) in *. set (w := (hi - lo) / pow2 n) in *. clearbody a w.
  qlra.
Qed.

Lemma narrow_zeros_fst (n : nat) (lo hi : Q) :
  fst (narrow (repeat 0%Z n) lo hi) = lo.
Proof.
  revert hi. induction n as [|n IH]; intros hi; [reflexivity|].
  cbn [repeat narrow Z.eqb negb]. apply IH.
Qed.

(** A value no further than one cell size from the lower bound lies in the
    lowest cell. *)
Lemma bisect_lowest (n : nat) (v lo hi : Q) :
  lo <= hi -> v <= snd (narrow (repeat 0%Z n) lo hi) ->
  bisect n v lo hi = repeat 0%Z n.
Proof.
  revert hi. induction n as [|n IH]; intros hi Hle Hv; [reflexivity|].
  cbn [repeat narrow Z.eqb negb] in Hv. cbn [bisect repeat].
  destruct (narrow_bounds (repeat 0%Z n) lo ((lo + hi) / 2)) as (H1 & H2 & H3);
    [qlra|].
  assert (E : Qgt_bool v ((lo + hi) / 2) = false)
    by (apply Qgt_bool_false; lra).
  rewrite E. f_equal. apply IH; [qlra|assumption].
Qed.

Lemma cell_center_lowest (n : nat) (v lo hi : Q) :
  lo <= hi -> v <= lo + (hi - lo) / pow2 n ->
  cell_center n v lo hi == lo + (hi - lo) / pow2 n / 2.
Proof.
  intros Hle Hv.
  pose proof (narrow_width_div (repeat 0%Z n) lo hi) as Hw.
  rewrite repeat_length, narrow_zeros_fst in Hw.
  unfold cell_center, midpoint. rewrite bisect_lowest.
  - rewrite narrow_zeros_fst.
    set (b := snd _) in *. set (w := (hi - lo) / pow2 n) in *. clearbody b w.
    qlra.
  - assumption.
  - set (b := snd _) in *. set (w := (hi - lo) / pow2 n) in *. clearbody b w.
    lra.
Qed.

(** [_decode_bitstream] stays inside the range whatever the bit stream. *)
Lemma decode_step_range (s n : Z) (lo hi : Q) (l : list Z) (st : Q * Q) :
  lo <= fst st /\ fst st <= snd st /\ snd st <= hi ->
  let st' := fold_left (decode_step s n) l st in
  lo <= fst st' /\ fst st' <= snd st' /\ snd st' <= hi.
Proof.
  revert st. induction l as [|i l IH]; intros [a b] H; cbn [fold_left].
  - assumption.
  - apply IH. unfold decode_step. cbn [fst snd] in *.
    destruct (negb _); cbn [fst snd]; qlra.
Qed.

Lemma _decode_bitstream_range (s n : Z) (lo hi : Q) :
  lo <= hi -> lo <= _decode_bitstream s n lo hi <= hi.
Proof.
  intros Hle. unfold _decode_bitstream.
  pose proof (decode_step_range s n lo hi (range n) (lo, hi)) as H.
  cbn [fst snd] in H. cbv zeta in H.
  destruct (fold_left _ _ _) as [a b]. cbn [fst snd] in H.
  destruct H as (H1 & H2 & H3); [lra|]. qlra.
Qed.

Local Close Scope Q_scope.

(** * The codec on bit lists *)

Lemma bits_split (p : Z) :
  0 <= p ->
  (lat_bits_of p <= lon_bits_of p <= S (lat_bits_of p))%nat
  /\ (lon_bits_of p + lat_bits_of p = 5 * Z.to_nat p)%nat
  /\ Z.of_nat (lat_bits_of p) = p * 5 / 2
  /\ Z.of_nat (lon_bits_of p) = p * 5 - p * 5 / 2.
Proof.
  intros Hp. unfold lat_bits_of, lon_bits_of.
  pose proof (Z.div_mod (p * 5) 2 ltac:(lia)) as Hdiv.
  pose proof (Z.mod_pos_bound (p * 5) 2 ltac:(lia)) as Hmod.
  lia.
Qed.

Lemma code_bits_length (p : Z) (lat lon : Q) :
  0 <= p -> List.length (code_bits p lat lon) = (5 * Z.to_nat p)%nat.
Proof.
  intros Hp. unfold code_bits.
  rewrite interleave_length, !bisect_length.
  apply (bits_split p Hp).
Qed.

Lemma code_bits_bits01 (p : Z) (lat lon : Q) : bits01 (code_bits p lat lon).
Proof. apply interleave_bits01; apply bisect_bits01. Qed.

Lemma code_bits_split (p : Z) (lat lon : Q) :
  0 <= p ->
  evens (code_bits p lat lon) = bisect (lon_bits_of p) lon (-180) 180
  /\ odds (code_bits p lat lon) = bisect (lat_bits_of p) lat (-90) 90.
Proof.
  intros Hp. apply deinterleave_interleave.
  rewrite !bisect_length. apply (bits_split p Hp).
Qed.

(** [encode] on a coordinate in range raises nothing. *)
Lemma encode_ok (self : Geohash) (lat lon : Q) :
  0 <= precision self -> in_range lat lon ->
  encode self lat lon = Ok (code_of (precision self) lat lon).
Proof.
  intros Hp [[Hlat1 Hlat2] [Hlon1 Hlon2]]. unfold encode, code_of, code_bits.
  destruct (bits_split (precision self) Hp) as (Hle & Hsum & HLA & HLO).
  rewrite !_encode_bitstream_ok by assumption. cbn [bind].
  fold (lat_bits_of (precision self)). fold (lon_bits_of (precision self)).
  set (latb := bisect (lat_bits_of (precision self)) lat (-90) 90).
  set (lonb := bisect (lon_bits_of (precision self)) lon (-180) 180).
  assert (Hlatb : len latb = precision self * 5 / 2)
    by (unfold len, latb; rewrite bisect_length; assumption).
  assert (Hlonb : len lonb = precision self * 5 - precision self * 5 / 2)
    by (unfold len, lonb; rewrite bisect_length; assumption).
  rewrite <- Hlonb, <- Hlatb.
  rewrite interleave_loop
    by (unfold latb, lonb; rewrite !bisect_length; assumption).
  cbn [bind].
  replace (precision self * 5) with (Z.of_nat (Z.to_nat (precision self)) * 5)
    by lia.
  rewrite base32_loop.
  - reflexivity.
  - apply (code_bits_length (precision self) lat lon Hp).
  - apply (code_bits_bits01 (precision self) lat lon).
Qed.

Lemma encode_out_of_range (self : Geohash) (lat lon : Q) :
  ~ in_range lat lon ->
  encode self lat lon = Raise (ValueError ValueOutOfBounds).
Proof.
  intros H. unfold encode.
  destruct (Qle_bool (-90) lat && Qle_bool lat 90) eqn:Elat.
  - rewrite (_encode_bitstream_ok lat)
      by (apply andb_prop in Elat as [? ?]; apply Qle_bool_iff; assumption).
    cbn [bind]. rewrite _encode_bitstream_out; [reflexivity|].
    intros Hlon. apply H. split; [|assumption].
    apply andb_prop in Elat as [? ?]. split; apply Qle_bool_iff; assumption.
  - unfold _encode_bitstream at 1. rewrite Elat. reflexivity.
Qed.

Lemma code_of_valid (self : Geohash) (lat lon : Q) :
  0 <= precision self -> valid_code self (code_of (precision self) lat lon).
Proof.
  intros Hp. unfold valid_code, code_of.
  rewrite list_ascii_of_string_of_list_ascii. split.
  - unfold len.
    rewrite (pack_length (Z.to_nat (precision self)))
      by (apply code_bits_length; assumption).
    lia.
  - apply (pack_alphabet (Z.to_nat (precision self)));
      [apply code_bits_length; assumption|apply code_bits_bits01].
Qed.

(** [decode] on a code that [encode] produced returns the centres of the
    cells of the two coordinates. *)
Lemma decode_code_of (self : Geohash) (lat lon : Q) :
  0 <= precision self ->
  decode self (code_of (precision self) lat lon)
  = Ok (cell_center (lat_bits_of (precision self)) lat (-90) 90,
        cell_center (lon_bits_of (precision self)) lon (-180) 180).
Proof.
  intros Hp. destruct (code_of_valid self lat lon Hp) as [Hlen Hall].
  unfold decode. rewrite Hlen, Z.eqb_refl, Hall. cbn [negb].
  unfold code_of. rewrite list_ascii_of_string_of_list_ascii.
  pose proof (code_bits_length (precision self) lat lon Hp) as Hbits.
  pose proof (code_bits_bits01 (precision self) lat lon) as Hb.
  destruct (code_bits_split (precision self) lat lon Hp) as [Hev Hod].
  destruct (bits_split (precision self) Hp) as (Hle & Hsum & HLA & HLO).
  rewrite (value_loop (Z.to_nat (precision self))) by assumption.
  cbn [bind]. rewrite <- HLO, <- HLA.
  replace (precision self * 5)
    with (len (code_bits (precision self) lat lon))
    by (unfold len; lia).
  rewrite deinterleave_loop by assumption.
  rewrite Hev, Hod.
  rewrite <- (bisect_length (lat_bits_of (precision self)) lat (-90) 90) at 2.
  rewrite <- (bisect_length (lon_bits_of (precision self)) lon (-180) 180) at 2.
  fold (len (bisect (lat_bits_of (precision self)) lat (-90) 90)).
  fold (len (bisect (lon_bits_of (precision self)) lon (-180) 180)).
  rewrite !_decode_bitstream_horner by apply bisect_bits01.
  reflexivity.
Qed.

Lemma index_from_contains (s : list ascii) (c : ascii) (k : Z) :
  contains s c = true -> exists i, index_from s c k = Ok i.
Proof.
  revert k. induction s as [|x s IH]; intros k H; [discriminate|].
  cbn in H |- *. rewrite Ascii.eqb_sym in H.
  destruct (Ascii.eqb x c); [eauto|]. apply IH. assumption.
Qed.

Lemma value_loop_total (chars : list ascii) (v : Z) :
  forallb (contains BASE32) chars = true ->
  exists v', for_each chars value_step v = Ok v'.
Proof.
  revert v. induction chars as [|c chars IH]; intros v H.
  - eexists. reflexivity.
  - cbn [forallb] in H. apply andb_prop in H as [Hc Hrest].
    destruct (index_from_contains BASE32 c 0 Hc) as [i Hi].
    cbn [for_each]. unfold value_step at 1. unfold index. rewrite Hi.
    cbn [bind]. apply IH. assumption.
Qed.

(** [decode] on a valid code returns a coordinate in range. *)
Lemma decode_valid (self : Geohash) (code : string) :
  valid_code self code ->
  exists lat lon, decode self code = Ok (lat, lon) /\ in_range lat lon.
Proof.
  intros [Hlen Hall]. unfold decode. rewrite Hlen, Z.eqb_refl, Hall.
  cbn [negb].
  destruct (value_loop_total (list_ascii_of_string code) 0 Hall) as [v Hv].
  rewrite Hv. cbn [bind].
  destruct (fold_left _ _ _) as [lat_stream lon_stream].
  eexists. eexists. split; [reflexivity|].
  split; apply _decode_bitstream_range; lra.
Qed.

Lemma decode_accepts_valid (self : Geohash) (code : string) (c : Q * Q) :
  decode self code = Ok c -> valid_code self code.
Proof.
  unfold decode, valid_code. intros H.
  destruct (len (list_ascii_of_string code) =? precision self) eqn:E;
    [|discriminate].
  destruct (forallb _ _); [|discriminate].
  apply Z.eqb_eq in E. split; [assumption|reflexivity].
Qed.

(** * Cell size and neighbours *)

Local Open Scope Q_scope.

Lemma _get_cell_size_pow2 (p : Z) :
  (0 <= p)%Z ->
  _get_cell_size p
  = (180 / pow2 (lat_bits_of p), 360 / pow2 (lon_bits_of p)).
Proof.
  intros Hp. unfold _get_cell_size, pow2.
  destruct (bits_split p Hp) as (_ & _ & HLA & HLO).
  rewrite !Z.shiftl_1_l, HLA, HLO. reflexivity.
Qed.

Lemma lon_width_range (n : nat) : 0 <= 360 / pow2 n <= 360.
Proof.
  pose proof (cell_size_nonneg n (-180) 180 ltac:(lra)) as H.
  setoid_replace (180 - -180) with 360 in H by ring. assumption.
Qed.

Lemma lat_height_range (n : nat) : 0 <= 180 / pow2 n <= 180.
Proof.
  pose proof (cell_size_nonneg n (-90) 90 ltac:(lra)) as H.
  setoid_replace (90 - -90) with 180 in H by ring. assumption.
Qed.

Lemma clamp_lat_range (nlat : Q) : -90 <= clamp_lat nlat <= 90.
Proof.
  unfold clamp_lat, Qlt_bool.
  destruct (Qgt_bool nlat 90) eqn:E1; [lra|].
  destruct (Qgt_bool (-90) nlat) eqn:E2; [lra|].
  apply Qgt_bool_false in E1, E2. lra.
Qed.

Lemma clamp_lat_above (nlat : Q) : 90 <= nlat -> 90 <= clamp_lat nlat.
Proof.
  intros H. unfold clamp_lat, Qlt_bool.
  destruct (Qgt_bool nlat 90) eqn:E1; [lra|].
  destruct (Qgt_bool (-90) nlat) eqn:E2; [|assumption].
  apply Qgt_bool_true in E2. lra.
Qed.

Lemma wrap_lon_range (nlon : Q) :
  -540 <= nlon <= 540 -> -180 <= wrap_lon nlon <= 180.
Proof.
  intros H. unfold wrap_lon, Qlt_bool.
  destruct (Qgt_bool nlon 180) eqn:E1.
  - apply Qgt_bool_true in E1. lra.
  - destruct (Qgt_bool (-180) nlon) eqn:E2.
    + apply Qgt_bool_true in E2. lra.
    + apply Qgt_bool_false in E1, E2. lra.
Qed.

Lemma wrap_lon_east (nlon : Q) : 180 < nlon -> wrap_lon nlon = nlon - 360.
Proof.
  intros H. unfold wrap_lon. apply Qgt_bool_true in H. rewrite H.
  reflexivity.
Qed.

(** Every point [get_neighbors] re-encodes is a coordinate in range. *)
Lemma offset_point_in_range (lat lon dlat dlon : Q) :
  in_range lat lon -> -360 <= dlon <= 360 ->
  in_range (fst (offset_point lat lon dlat dlon))
    (snd (offset_point lat lon dlat dlon)).
Proof.
  intros [Hlat Hlon] Hd. unfold offset_point. cbn [fst snd]. split.
  - apply clamp_lat_range.
  - apply wrap_lon_range. lra.
Qed.

Lemma neighbor_step_ok (self : Geohash) (lat lon : Q) (nbrs : dict string)
  (d : string) (dlat dlon : Q) :
  (0 <= precision self)%Z -> in_range lat lon -> -360 <= dlon <= 360 ->
  neighbor_step self lat lon nbrs (d, (dlat, dlon))
  = Ok (dict_set nbrs d
          (code_of (precision self) (clamp_lat (lat + dlat))
             (wrap_lon (lon + dlon)))).
Proof.
  intros Hp Hin Hd. unfold neighbor_step.
  pose proof (offset_point_in_range lat lon dlat dlon Hin Hd) as Hoff.
  unfold offset_point in *. cbn [fst snd] in Hoff.
  rewrite encode_ok by assumption. reflexivity.
Qed.

Lemma len_string (s : string) :
  len (list_ascii_of_string s) = Z.of_nat (String.length s).
Proof. unfold len. induction s; cbn [list_ascii_of_string List.length String.length]; lia. Qed.

(** [get_neighbors] on a valid code raises nothing. *)
Lemma get_neighbors_ok (self : Geohash) (code : string) (lat lon : Q) :
  decode self code = Ok (lat, lon) ->
  get_neighbors self code
  = Ok (neighbor_table (precision self) lat lon
          (fst (_get_cell_size (precision self)))
          (snd (_get_cell_size (precision self)))).
Proof.
  intros Hdec.
  pose proof (decode_accepts_valid self code _ Hdec) as Hvalid.
  destruct (decode_valid self code Hvalid) as (lat' & lon' & Hdec' & Hin).
  rewrite Hdec in Hdec'. injection Hdec' as <- <-.
  destruct Hvalid as [Hlen _].
  assert (Hp : (0 <= precision self)%Z) by (unfold len in Hlen; lia).
  unfold get_neighbors. rewrite Hdec. cbn [bind]. rewrite Hlen.
  rewrite (_get_cell_size_pow2 _ Hp). cbn [fst snd].
  pose proof (lon_width_range (lon_bits_of (precision self))) as Hw.
  unfold directions. cbn [for_each].
  repeat (rewrite neighbor_step_ok by (try assumption; lra); cbn [bind]).
  reflexivity.
Qed.

Local Close Scope Q_scope.

(** * Properties of the codec *)

Local Open Scope Q_scope.

Lemma lat_error_eq (p : Z) :
  (0 <= p)%Z ->
  (90 - -90) / pow2 (lat_bits_of p) == 180 / inject_Z (2 ^ (p * 5 / 2)).
Proof.
  intros Hp. destruct (bits_split p Hp) as (_ & _ & HLA & _).
  unfold pow2. rewrite HLA. setoid_replace (90 - -90) with 180 by ring.
  reflexivity.
Qed.

Lemma lon_error_eq (p : Z) :
  (0 <= p)%Z ->
  (180 - -180) / pow2 (lon_bits_of p)
  == 360 / inject_Z (2 ^ (p * 5 - p * 5 / 2)).
Proof.
  intros Hp. destruct (bits_split p Hp) as (_ & _ & _ & HLO).
  unfold pow2. rewrite HLO. setoid_replace (180 - -180) with 360 by ring.
  reflexivity.
Qed.

Lemma contains_In (s : list ascii) (c : ascii) :
  contains s c = true <-> In c s.
Proof.
  unfold contains. rewrite existsb_exists. split.
  - intros (x & Hx & E). apply Ascii.eqb_eq in E. subst. assumption.
  - intros H. exists c. split; [assumption|apply Ascii.eqb_refl].
Qed.

Lemma neighbor_table_codes (p : Z) (lat lon h w : Q) (d c : string) :
  In (d, c) (neighbor_table p lat lon h w) ->
  exists dlat dlon,
    In (d, (dlat, dlon)) (directions h w)
    /\ c = code_of p (clamp_lat (lat + dlat)) (wrap_lon (lon + dlon)).
Proof.
  unfold neighbor_table, directions. cbn [In].
  intros H.
  repeat (destruct H as [H|H];
          [injection H as <- <-; eexists; eexists; split;
           [|reflexivity]; tauto|]).
  contradiction.
Qed.

Lemma decode_length_mismatch (self : Geohash) (code : string) :
  Z.of_nat (String.length code) <> precision self ->
  decode self code = Raise (ValueError LengthMismatch).
Proof.
  intros Hlen. unfold decode. rewrite len_string.
  apply Z.eqb_neq in Hlen. rewrite Hlen. reflexivity.
Qed.

Lemma code_of_length (self : Geohash) (lat lon : Q) :
  (0 <= precision self)%Z ->
  Z.of_nat (String.length (code_of (precision self) lat lon))
  = precision self.
Proof.
  intros Hp. rewrite <- len_string. apply code_of_valid. assumption.
Qed.

(** C1: for a codec of precision 1 to 12 and a coordinate in range, [decode]
    of the code that [encode] returns is a coordinate whose latitude is
    within 180/2^(precision*5 // 2) and whose longitude is within
    360/2^(precision*5 - precision*5 // 2) of the input, which are the two
    components of [_get_cell_size precision]. *)
Theorem roundtrip_error_bound (self : Geohash) (lat lon : Q) :
  valid_codec self -> in_range lat lon ->
  exists code lat' lon',
    encode self lat lon = Ok code
    /\ decode self code = Ok (lat', lon')
    /\ Qabs (lat' - lat) <= 180 / inject_Z (2 ^ (precision self * 5 / 2))
    /\ Qabs (lon' - lon)
       <= 360 / inject_Z (2 ^ (precision self * 5 - precision self * 5 / 2))
    /\ _get_cell_size (precision self)
       = (180 / inject_Z (2 ^ (precision self * 5 / 2)),
          360 / inject_Z (2 ^ (precision self * 5 - precision self * 5 / 2))).
Proof.
  intros Hc Hin.
  assert (Hp : (0 <= precision self)%Z) by (unfold valid_codec in Hc; lia).
  exists (code_of (precision self) lat lon).
  exists (cell_center (lat_bits_of (precision self)) lat (-90) 90).
  exists (cell_center (lon_bits_of (precision self)) lon (-180) 180).
  destruct Hin as [Hlat Hlon].
  split; [apply encode_ok; [assumption|split; assumption]|].
  split; [apply decode_code_of; assumption|].
  split; [|split].
  - pose proof (cell_center_error (lat_bits_of (precision self)) lat _ _ Hlat)
      as He.
    pose proof (cell_size_nonneg (lat_bits_of (precision self)) (-90) 90
                  ltac:(lra)) as [Hn _].
    rewrite <- lat_error_eq by assumption.
    set (w := (90 - -90) / pow2 _) in *. clearbody w.
    eapply Qle_trans; [exact He|]. qlra.
  - pose proof (cell_center_error (lon_bits_of (precision self)) lon _ _ Hlon)
      as He.
    pose proof (cell_size_nonneg (lon_bits_of (precision self)) (-180) 180
                  ltac:(lra)) as [Hn _].
    rewrite <- lon_error_eq by assumption.
    set (w := (180 - -180) / pow2 _) in *. clearbody w.
    eapply Qle_trans; [exact He|]. qlra.
  - unfold _get_cell_size. rewrite !Z.shiftl_1_l. reflexivity.
Qed.

(** C3: for a codec of precision 1 to 12 and a coordinate in range, encoding
    the coordinate that [decode] returns for [encode lat lon] gives the code
    [encode lat lon] again. *)
Theorem reencode_same_code (self : Geohash) (lat lon : Q) :
  valid_codec self -> in_range lat lon ->
  exists code lat' lon',
    encode self lat lon = Ok code
    /\ decode self code = Ok (lat', lon')
    /\ encode self lat' lon' = Ok code.
Proof.
  intros Hc Hin.
  assert (Hp : (0 <= precision self)%Z) by (unfold valid_codec in Hc; lia).
  exists (code_of (precision self) lat lon).
  exists (cell_center (lat_bits_of (precision self)) lat (-90) 90).
  exists (cell_center (lon_bits_of (precision self)) lon (-180) 180).
  split; [apply encode_ok; assumption|].
  split; [apply decode_code_of; assumption|].
  rewrite encode_ok.
  - unfold code_of, code_bits. rewrite !bisect_cell_center by lra.
    reflexivity.
  - assumption.
  - split; apply cell_center_range; lra.
Qed.

(** C4: for a codec of precision 1 to 12 and a coordinate in range, [encode]
    returns a string whose length is the configured precision and whose
    characters all belong to [BASE32]; none of them is a, i, l or o. *)
Theorem encode_length_alphabet (self : Geohash) (lat lon : Q) :
  valid_codec self -> in_range lat lon ->
  exists code,
    encode self lat lon = Ok code
    /\ Z.of_nat (String.length code) = precision self
    /\ forall c, In c (list_ascii_of_string code) ->
         In c BASE32
         /\ c <> "a"%char /\ c <> "i"%char /\ c <> "l"%char /\ c <> "o"%char.
Proof.
  intros Hc Hin.
  assert (Hp : (0 <= precision self)%Z) by (unfold valid_codec in Hc; lia).
  exists (code_of (precision self) lat lon).
  destruct (code_of_valid self lat lon Hp) as [Hlen Hall].
  split; [apply encode_ok; assumption|].
  split; [apply code_of_length; assumption|].
  intros c Hin_c.
  rewrite forallb_forall in Hall. specialize (Hall c Hin_c).
  split; [apply contains_In; assumption|].
  repeat split; intros ->; discriminate Hall.
Qed.

(** C7: [decode] raises the length-mismatch error on every code whose length
    is not the configured precision, and the invalid-character error on every
    code of that length with a character outside [BASE32], such as a; an
    exception carries no coordinate. *)
Theorem decode_rejects_invalid (self : Geohash) (code : string) :
  (Z.of_nat (String.length code) <> precision self ->
   decode self code = Raise (ValueError LengthMismatch))
  /\ (Z.of_nat (String.length code) = precision self ->
      (exists c, In c (list_ascii_of_string code) /\ ~ In c BASE32) ->
      decode self code = Raise (ValueError InvalidCharacter))
  /\ ~ In "a"%char BASE32.
Proof.
  split; [|split].
  - apply decode_length_mismatch.
  - intros Hlen (c & Hc & Hout). unfold decode. rewrite len_string.
    apply Z.eqb_eq in Hlen. rewrite Hlen. cbn [negb].
    destruct (forallb (contains BASE32) (list_ascii_of_string code)) eqn:E;
      [|reflexivity].
    rewrite forallb_forall in E. specialize (E c Hc).
    apply contains_In in E. contradiction.
  - intros H. apply contains_In in H. discriminate H.
Qed.

(** C8: constructing the codec succeeds for every precision from 1 to 12 and
    raises the precision error for every other precision. *)
Theorem init_precision_bounds (p : Z) :
  ((1 <= p <= 12)%Z -> __init__ (Some p) = Ok {| precision := p |})
  /\ (~ (1 <= p <= 12)%Z ->
      __init__ (Some p) = Raise (ValueError PrecisionOutOfRange)).
Proof.
  unfold __init__. split; intros H.
  - destruct (Z.leb_spec 1 p); [|lia]. destruct (Z.leb_spec p 12); [|lia].
    reflexivity.
  - destruct (Z.leb_spec 1 p); [|reflexivity].
    destruct (Z.leb_spec p 12); [lia|reflexivity].
Qed.

(** C10: constructing the codec without a precision gives precision 5; on
    that codec [encode] returns codes of five characters and [decode]
    accepts a code only if it has five characters. *)
Theorem default_precision_5 :
  __init__ None = Ok {| precision := 5 |}
  /\ (forall lat lon, in_range lat lon ->
      exists code,
        encode {| precision := 5 |} lat lon = Ok code
        /\ String.length code = 5%nat)
  /\ (forall code c,
      decode {| precision := 5 |} code = Ok c -> String.length code = 5%nat)
  /\ (forall code, String.length code <> 5%nat ->
      decode {| precision := 5 |} code = Raise (ValueError LengthMismatch)).
Proof.
  split; [reflexivity|]. split; [|split].
  - intros lat lon Hin.
    exists (code_of 5 lat lon). split.
    + apply (encode_ok {| precision := 5 |}); [cbn; lia|assumption].
    + pose proof (code_of_length {| precision := 5 |} lat lon
                    ltac:(cbn; lia)) as Hlen.
      cbn [precision] in Hlen. lia.
  - intros code c Hdec.
    apply decode_accepts_valid in Hdec as [Hlen _].
    rewrite len_string in Hlen. cbn in Hlen. lia.
  - intros code Hlen.
    apply (decode_length_mismatch {| precision := 5 |} code). cbn. lia.
Qed.

Local Close Scope Q_scope.

Local Open Scope Q_scope.

Lemma directions_dlon (h w dlat dlon : Q) (d : string) :
  0 <= w <= 360 -> In (d, (dlat, dlon)) (directions h w) ->
  -360 <= dlon <= 360.
Proof.
  intros Hw. unfold directions. cbn [In]. intros H.
  repeat (destruct H as [H|H]; [injection H as <- <- <-; lra|]).
  contradiction.
Qed.

Lemma lat_height_pos (n : nat) : 0 < 180 / pow2 n.
Proof.
  pose proof (pow2_ge_1 n). apply Qlt_shift_div_l; lra.
Qed.

Lemma lon_width_pos (n : nat) : 0 < 360 / pow2 n.
Proof.
  pose proof (pow2_ge_1 n). apply Qlt_shift_div_l; lra.
Qed.

Lemma decode_precision_nonneg (self : Geohash) (code : string) (c : Q * Q) :
  decode self code = Ok c ->
  (0 <= precision self)%Z
  /\ len (list_ascii_of_string code) = precision self.
Proof.
  intros Hdec. apply decode_accepts_valid in Hdec as [Hlen _].
  split; [unfold len in Hlen; lia|assumption].
Qed.

Lemma decode_in_range (self : Geohash) (code : string) (lat lon : Q) :
  decode self code = Ok (lat, lon) -> in_range lat lon.
Proof.
  intros Hdec.
  destruct (decode_valid self code (decode_accepts_valid _ _ _ Hdec))
    as (lat' & lon' & Hdec' & Hin).
  rewrite Hdec in Hdec'. injection Hdec' as <- <-. assumption.
Qed.

(** C2, as the code has it: [get_neighbors] decodes its argument first, so
    a code whose length is not the configured precision raises the
    length-mismatch error; on a valid code, whose length is the configured
    precision, it returns the eight entries n, s, e, w, ne, se, nw, sw, each
    the code of the offset point computed from the cell size of the input
    code's length, and each as long as the input code. *)
Theorem neighbors_same_length (self : Geohash) (code : string) :
  (Z.of_nat (String.length code) <> precision self ->
   get_neighbors self code = Raise (ValueError LengthMismatch))
  /\ (valid_code self code ->
      exists lat lon nbrs,
        decode self code = Ok (lat, lon)
        /\ get_neighbors self code = Ok nbrs
        /\ map fst nbrs
           = ["n"; "s"; "e"; "w"; "ne"; "se"; "nw"; "sw"]%string
        /\ forall d c, In (d, c) nbrs ->
             String.length c = String.length code
             /\ exists dlat dlon,
                  In (d, (dlat, dlon))
                    (directions
                       (fst (_get_cell_size
                               (len (list_ascii_of_string code))))
                       (snd (_get_cell_size
                               (len (list_ascii_of_string code)))))
                  /\ encode self
                       (fst (offset_point lat lon dlat dlon))
                       (snd (offset_point lat lon dlat dlon))
                     = Ok c).
Proof.
  split.
  - intros Hlen. unfold get_neighbors.
    rewrite decode_length_mismatch by assumption. reflexivity.
  - intros Hvalid.
    destruct (decode_valid self code Hvalid) as (lat & lon & Hdec & Hin).
    destruct (decode_precision_nonneg self code _ Hdec) as [Hp Hlen].
    exists lat, lon. eexists.
    split; [exact Hdec|].
    split; [apply get_neighbors_ok; exact Hdec|].
    split; [reflexivity|].
    intros d c Hdc. rewrite Hlen.
    apply neighbor_table_codes in Hdc as (dlat & dlon & Hd & ->).
    split.
    + apply Nat2Z.inj. rewrite code_of_length by assumption.
      rewrite <- Hlen. apply len_string.
    + exists dlat, dlon. split; [assumption|].
      unfold offset_point. cbn [fst snd].
      apply encode_ok; [assumption|].
      apply (offset_point_in_range lat lon dlat dlon Hin).
      apply (directions_dlon _ _ dlat dlon d) in Hd; [assumption|].
      rewrite (_get_cell_size_pow2 _ Hp). cbn [snd].
      apply lon_width_range.
Qed.

(** C5, as the code has it: for a valid code whose centre latitude is within
    one cell height of 90, the offset latitude of the north neighbour is
    saturated at 90, and the north neighbour decodes to the centre of the
    northernmost row of cells, 90 minus half a cell height, which is below
    90. *)
Theorem north_neighbor_at_pole (self : Geohash) (code : string)
  (lat lon : Q) :
  decode self code = Ok (lat, lon) ->
  90 - lat <= fst (_get_cell_size (len (list_ascii_of_string code))) ->
  exists nbrs n nlat nlon,
    get_neighbors self code = Ok nbrs
    /\ dict_get nbrs "n" = Some n
    /\ fst (offset_point lat lon
              (fst (_get_cell_size (len (list_ascii_of_string code)))) 0)
       == 90
    /\ decode self n = Ok (nlat, nlon)
    /\ nlat
       == 90 - fst (_get_cell_size (len (list_ascii_of_string code))) / 2
    /\ nlat < 90.
Proof.
  intros Hdec Hnear.
  destruct (decode_precision_nonneg self code _ Hdec) as [Hp Hlen].
  pose proof (decode_in_range self code lat lon Hdec) as [Hlat Hlon].
  rewrite Hlen in *. rewrite (_get_cell_size_pow2 _ Hp) in *.
  cbn [fst snd] in *.
  pose proof (lat_height_pos (lat_bits_of (precision self))) as Hh.
  set (h := 180 / pow2 (lat_bits_of (precision self))) in *.
  assert (Hclamp : 90 <= clamp_lat (lat + h))
    by (apply clamp_lat_above; lra).
  pose proof (clamp_lat_range (lat + h)) as Hrange.
  eexists. eexists. eexists. eexists.
  split; [apply get_neighbors_ok; exact Hdec|].
  split; [reflexivity|].
  split; [unfold offset_point; cbn [fst]; lra|].
  split; [apply decode_code_of; assumption|].
  rewrite (_get_cell_size_pow2 _ Hp). cbn [fst]. fold h.
  pose proof (cell_center_top (lat_bits_of (precision self))
                (clamp_lat (lat + h)) (-90) 90 ltac:(lra) Hclamp) as Hc.
  setoid_replace (90 - -90) with 180 in Hc by ring. fold h in Hc.
  split; [exact Hc|]. rewrite Hc. clearbody h. qlra.
Qed.

(** C6: for a valid code whose centre longitude plus one cell width exceeds
    180, the offset longitude of the east neighbour is the sum minus 360, and
    the east neighbour decodes to the centre of the westernmost column of
    cells, half a cell width above -180; every neighbour decodes to a
    longitude of at most 180. *)
Theorem east_neighbor_wraps (self : Geohash) (code : string) (lat lon : Q) :
  decode self code = Ok (lat, lon) ->
  180 < lon + snd (_get_cell_size (len (list_ascii_of_string code))) ->
  exists nbrs e elat elon,
    get_neighbors self code = Ok nbrs
    /\ dict_get nbrs "e" = Some e
    /\ snd (offset_point lat lon 0
              (snd (_get_cell_size (len (list_ascii_of_string code)))))
       = lon + snd (_get_cell_size (len (list_ascii_of_string code))) - 360
    /\ decode self e = Ok (elat, elon)
    /\ elon
       == -180 + snd (_get_cell_size (len (list_ascii_of_string code))) / 2
    /\ -180 < elon
    /\ elon < -180 + snd (_get_cell_size (len (list_ascii_of_string code)))
    /\ forall d c, In (d, c) nbrs ->
         exists clat clon, decode self c = Ok (clat, clon) /\ clon <= 180.
Proof.
  intros Hdec Hnear.
  destruct (decode_precision_nonneg self code _ Hdec) as [Hp Hlen].
  pose proof (decode_in_range self code lat lon Hdec) as [Hlat Hlon].
  rewrite Hlen in *. rewrite (_get_cell_size_pow2 _ Hp) in *.
  cbn [fst snd] in *.
  pose proof (lon_width_pos (lon_bits_of (precision self))) as Hw.
  set (w := 360 / pow2 (lon_bits_of (precision self))) in *.
  eexists. eexists. eexists. eexists.
  split; [apply get_neighbors_ok; exact Hdec|].
  split; [reflexivity|].
  split; [unfold offset_point; cbn [snd]; apply wrap_lon_east; assumption|].
  split; [apply decode_code_of; assumption|].
  rewrite (_get_cell_size_pow2 _ Hp). cbn [fst snd]. fold w.
  rewrite wrap_lon_east by assumption.
  assert (Hc : cell_center (lon_bits_of (precision self)) (lon + w - 360)
                 (-180) 180 == -180 + w / 2).
  { rewrite cell_center_lowest; [|lra|].
    - setoid_replace (180 - -180) with 360 by ring. reflexivity.
    - setoid_replace (180 - -180) with 360 by ring. fold w. lra. }
  split; [exact Hc|]. rewrite Hc.
  split; [clearbody w; qlra|]. split; [clearbody w; qlra|].
  intros d c Hdc.
  apply neighbor_table_codes in Hdc as (dlat & dlon & _ & ->).
  eexists. eexists. split; [apply decode_code_of; assumption|].
  apply cell_center_range. lra.
Qed.

(** C9: for a valid code, each of the eight points [get_neighbors]
    re-encodes has its latitude in [-90, 90] and its longitude in
    [-180, 180], [encode] accepts it, and [get_neighbors] raises nothing, so
    in particular not the out-of-range error of [_encode_bitstream]. *)
Theorem neighbors_offsets_in_range (self : Geohash) (code : string) :
  valid_code self code ->
  exists lat lon nbrs,
    decode self code = Ok (lat, lon)
    /\ (forall d dlat dlon,
          In (d, (dlat, dlon))
            (directions
               (fst (_get_cell_size (len (list_ascii_of_string code))))
               (snd (_get_cell_size (len (list_ascii_of_string code))))) ->
          in_range (fst (offset_point lat lon dlat dlon))
            (snd (offset_point lat lon dlat dlon))
          /\ encode self (fst (offset_point lat lon dlat dlon))
               (snd (offset_point lat lon dlat dlon))
             <> Raise (ValueError ValueOutOfBounds))
    /\ get_neighbors self code = Ok nbrs.
Proof.
  intros Hvalid.
  destruct (decode_valid self code Hvalid) as (lat & lon & Hdec & Hin).
  destruct (decode_precision_nonneg self code _ Hdec) as [Hp Hlen].
  exists lat, lon. eexists.
  split; [exact Hdec|].
  split; [|apply get_neighbors_ok; exact Hdec].
  intros d dlat dlon Hd. rewrite Hlen in Hd.
  assert (Hoff : in_range (fst (offset_point lat lon dlat dlon))
                   (snd (offset_point lat lon dlat dlon))).
  { apply (offset_point_in_range lat lon dlat dlon Hin).
    apply (directions_dlon _ _ dlat dlon d) in Hd; [assumption|].
    rewrite (_get_cell_size_pow2 _ Hp). cbn [snd]. apply lon_width_range. }
  split; [assumption|].
  rewrite encode_ok by assumption. discriminate.
Qed.

Local Close Scope Q_scope.

(** * Instances *)

Local Open Scope Q_scope.

Example encode_willis_tower :
  encode geo willis_lat willis_lon = Ok "dp3wjz"%string.
Proof. reflexivity. Qed.

Example neighbors_willis_tower :
  get_neighbors geo "dp3wjz"
  = Ok [ ("n", "dp3wmb"); ("s", "dp3wjy"); ("e", "dp3wnp"); ("w", "dp3wjx");
         ("ne", "dp3wq0"); ("se", "dp3wnn"); ("nw", "dp3wm8");
         ("sw", "dp3wjw") ]%string.
Proof. reflexivity. Qed.

Lemma roundtrip_error_bound_witness :
  valid_codec geo /\ in_range willis_lat willis_lon
  /\ exists code lat' lon',
       encode geo willis_lat willis_lon = Ok code
       /\ decode geo code = Ok (lat', lon')
       /\ Qabs (lat' - willis_lat) <= 180 / inject_Z (2 ^ 15)
       /\ Qabs (lon' - willis_lon) <= 360 / inject_Z (2 ^ 15).
Proof.
  assert (Hc : valid_codec geo) by (unfold valid_codec, geo; simpl; lia).
  assert (Hr : in_range willis_lat willis_lon)
    by (unfold in_range, willis_lat, willis_lon; lra).
  split; [exact Hc|]. split; [exact Hr|].
  destruct (roundtrip_error_bound geo willis_lat willis_lon Hc Hr)
    as (code & lat' & lon' & Henc & Hdec & Hlat & Hlon & _).
  exists code, lat', lon'. repeat split; assumption.
Defined.

Lemma reencode_same_code_witness :
  valid_codec geo /\ in_range willis_lat willis_lon
  /\ exists code lat' lon',
       encode geo willis_lat willis_lon = Ok code
       /\ decode geo code = Ok (lat', lon')
       /\ encode geo lat' lon' = Ok code.
Proof.
  assert (Hc : valid_codec geo) by (unfold valid_codec, geo; simpl; lia).
  assert (Hr : in_range willis_lat willis_lon)
    by (unfold in_range, willis_lat, willis_lon; lra).
  split; [exact Hc|]. split; [exact Hr|].
  exact (reencode_same_code geo willis_lat willis_lon Hc Hr).
Defined.

Lemma encode_length_alphabet_witness :
  valid_codec geo /\ in_range willis_lat willis_lon
  /\ exists code,
       encode geo willis_lat willis_lon = Ok code
       /\ Z.of_nat (String.length code) = 6%Z.
Proof.
  assert (Hc : valid_codec geo) by (unfold valid_codec, geo; simpl; lia).
  assert (Hr : in_range willis_lat willis_lon)
    by (unfold in_range, willis_lat, willis_lon; lra).
  split; [exact Hc|]. split; [exact Hr|].
  destruct (encode_length_alphabet geo willis_lat willis_lon Hc Hr)
    as (code & Henc & Hlen & _).
  exists code. split; assumption.
Defined.

Lemma decode_rejects_invalid_witness :
  decode geo "dp3w" = Raise (ValueError LengthMismatch)
  /\ decode geo "dp3wja" = Raise (ValueError InvalidCharacter).
Proof.
  split.
  - apply (proj1 (decode_rejects_invalid geo "dp3w")). simpl. lia.
  - apply (proj1 (proj2 (decode_rejects_invalid geo "dp3wja")));
      [reflexivity|].
    exists "a"%char. split; [simpl; tauto|].
    apply (proj2 (proj2 (decode_rejects_invalid geo "dp3wja"))).
Defined.

Lemma init_precision_bounds_witness :
  __init__ (Some 1%Z) = Ok {| precision := 1 |}
  /\ __init__ (Some 12%Z) = Ok {| precision := 12 |}
  /\ __init__ (Some 0%Z) = Raise (ValueError PrecisionOutOfRange)
  /\ __init__ (Some 13%Z) = Raise (ValueError PrecisionOutOfRange).
Proof.
  split; [apply (proj1 (init_precision_bounds 1)); lia|].
  split; [apply (proj1 (init_precision_bounds 12)); lia|].
  split; [apply (proj2 (init_precision_bounds 0)); lia|].
  apply (proj2 (init_precision_bounds 13)); lia.
Defined.

Lemma default_precision_5_witness :
  in_range willis_lat willis_lon
  /\ (exists code,
        encode geo5 willis_lat willis_lon = Ok code
        /\ String.length code = 5%nat)
  /\ decode geo5 "dp3wjz" = Raise (ValueError LengthMismatch).
Proof.
  assert (Hr : in_range willis_lat willis_lon)
    by (unfold in_range, willis_lat, willis_lon; lra).
  split; [exact Hr|]. split.
  - exact (proj1 (proj2 default_precision_5) willis_lat willis_lon Hr).
  - apply (proj2 (proj2 (proj2 default_precision_5))). simpl. lia.
Defined.

(** A code of two characters given to the default codec: [get_neighbors]
    raises instead of returning neighbours of two characters. *)
Lemma neighbors_partial_precision_raises :
  forallb (contains BASE32) (list_ascii_of_string "zz") = true
  /\ String.length "zz" = 2%nat
  /\ precision geo5 = 5%Z
  /\ get_neighbors geo5 "zz" = Raise (ValueError LengthMismatch).
Proof. repeat split. Qed.

Lemma neighbors_same_length_witness :
  get_neighbors geo5 "zz" = Raise (ValueError LengthMismatch)
  /\ valid_code geo5 "zzzzz"
  /\ exists nbrs,
       get_neighbors geo5 "zzzzz" = Ok nbrs
       /\ map fst nbrs = ["n"; "s"; "e"; "w"; "ne"; "se"; "nw"; "sw"]%string.
Proof.
  assert (Hv : valid_code geo5 "zzzzz")
    by (unfold valid_code; split; reflexivity).
  split; [apply (proj1 (neighbors_same_length geo5 "zz")); simpl; lia|].
  split; [exact Hv|].
  destruct (proj2 (neighbors_same_length geo5 "zzzzz") Hv)
    as (lat & lon & nbrs & _ & Hn & Hkeys & _).
  exists nbrs. split; assumption.
Defined.

(** The north neighbour of the north-easternmost cell of precision 5 is the
    cell itself, and decodes to a latitude that is not 90. *)
Lemma north_neighbor_not_at_90 :
  decode geo5 "zzzzz" = Ok (737100 # 8192, 2948760 # 16384)
  /\ 90 - (737100 # 8192) <= fst (_get_cell_size 5)
  /\ (exists nbrs,
        get_neighbors geo5 "zzzzz" = Ok nbrs
        /\ dict_get nbrs "n" = Some "zzzzz"%string)
  /\ ~ (737100 # 8192) == 90.
Proof.
  split; [vm_compute; reflexivity|].
  split; [vm_compute; discriminate|].
  split; [|vm_compute; discriminate].
  eexists. split; [vm_compute; reflexivity|]. reflexivity.
Qed.

Lemma north_neighbor_at_pole_witness :
  decode geo5 "zzzzz" = Ok (737100 # 8192, 2948760 # 16384)
  /\ 90 - (737100 # 8192)
     <= fst (_get_cell_size (len (list_ascii_of_string "zzzzz")))
  /\ exists nbrs n nlat nlon,
       get_neighbors geo5 "zzzzz" = Ok nbrs
       /\ dict_get nbrs "n" = Some n
       /\ decode geo5 n = Ok (nlat, nlon)
       /\ nlat < 90.
Proof.
  assert (Hd : decode geo5 "zzzzz" = Ok (737100 # 8192, 2948760 # 16384))
    by (vm_compute; reflexivity).
  assert (Hn : 90 - (737100 # 8192)
               <= fst (_get_cell_size (len (list_ascii_of_string "zzzzz"))))
    by (vm_compute; discriminate).
  split; [exact Hd|]. split; [exact Hn|].
  destruct (north_neighbor_at_pole geo5 "zzzzz" _ _ Hd Hn)
    as (nbrs & n & nlat & nlon & H1 & H2 & _ & H3 & _ & H4).
  exists nbrs, n, nlat, nlon. repeat split; assumption.
Defined.

Lemma east_neighbor_wraps_witness :
  decode geo5 "zzzzz" = Ok (737100 # 8192, 2948760 # 16384)
  /\ 180 < (2948760 # 16384)
           + snd (_get_cell_size (len (list_ascii_of_string "zzzzz")))
  /\ exists nbrs e elat elon,
       get_neighbors geo5 "zzzzz" = Ok nbrs
       /\ dict_get nbrs "e" = Some e
       /\ decode geo5 e = Ok (elat, elon)
       /\ -180 < elon.
Proof.
  assert (Hd : decode geo5 "zzzzz" = Ok (737100 # 8192, 2948760 # 16384))
    by (vm_compute; reflexivity).
  assert (Hn : 180 < (2948760 # 16384)
                     + snd (_get_cell_size
                              (len (list_ascii_of_string "zzzzz"))))
    by (vm_compute; reflexivity).
  split; [exact Hd|]. split; [exact Hn|].
  destruct (east_neighbor_wraps geo5 "zzzzz" _ _ Hd Hn)
    as (nbrs & e & elat & elon & H1 & H2 & _ & H3 & _ & H4 & _).
  exists nbrs, e, elat, elon. repeat split; assumption.
Defined.

Lemma neighbors_offsets_in_range_witness :
  valid_code geo "dp3wjz"
  /\ exists nbrs, get_neighbors geo "dp3wjz" = Ok nbrs.
Proof.
  assert (Hv : valid_code geo "dp3wjz")
    by (unfold valid_code; split; reflexivity).
  split; [exact Hv|].
  destruct (neighbors_offsets_in_range geo "dp3wjz" Hv)
    as (lat & lon & nbrs & _ & _ & Hn).
  exists nbrs. exact Hn.
Defined.

Local Close Scope Q_scope.

(** * Further properties *)

(** * Codes as bit streams *)

Lemma char_bits_spec (c : ascii) :
  contains BASE32 c = true ->
  exists b0 b1 b2 b3 b4,
    char_bits c = [b0; b1; b2; b3; b4]
    /\ is_bit b0 /\ is_bit b1 /\ is_bit b2 /\ is_bit b3 /\ is_bit b4
    /\ base32_char (val5 b0 b1 b2 b3 b4) = c.
Proof.
  intros H. apply contains_In in H. unfold BASE32 in H.
  cbn [list_ascii_of_string In] in H.
  repeat (destruct H as [<-|H];
          [do 5 eexists; split; [reflexivity|];
           unfold is_bit; repeat split; auto|]).
  contradiction.
Qed.

(** Every string over the alphabet is the packing of its bit stream. *)
Lemma unpack_pack (chars : list ascii) :
  forallb (contains BASE32) chars = true ->
  bits01 (unpack chars)
  /\ List.length (unpack chars) = (5 * List.length chars)%nat
  /\ pack (unpack chars) = chars.
Proof.
  induction chars as [|c chars IH]; intros H.
  - repeat split. constructor.
  - cbn [forallb] in H. apply andb_prop in H as [Hc Hrest].
    destruct (IH Hrest) as (Hb & Hlen & Hpack).
    destruct (char_bits_spec c Hc)
      as (b0 & b1 & b2 & b3 & b4 & Hbits & H0 & H1 & H2 & H3 & H4 & Hchar).
    unfold unpack in *. cbn [flat_map]. rewrite Hbits.
    cbn [app]. split; [|split].
    + repeat (constructor; [assumption|]). assumption.
    + cbn [List.length]. lia.
    + cbn [pack]. rewrite Hchar, Hpack. reflexivity.
Qed.

Lemma pair_induction {A} (P : list A -> Prop) :
  P [] -> (forall x, P [x]) -> (forall x y l, P l -> P (x :: y :: l)) ->
  forall l, P l.
Proof.
  intros H0 H1 H2 l.
  assert (H : P l /\ forall x, P (x :: l)).
  { induction l as [|y l [IHl IHx]]; split; auto. }
  apply H.
Qed.

Lemma interleave_deinterleave (l : list Z) :
  interleave (evens l) (odds l) = l.
Proof.
  induction l as [|x|x y l IH] using pair_induction; try reflexivity.
  rewrite evens_cons, !odds_cons, evens_cons. cbn [interleave].
  rewrite IH. reflexivity.
Qed.

Lemma deinterleave_lengths (l : list Z) :
  (List.length (evens l) + List.length (odds l) = List.length l)%nat
  /\ (List.length (odds l) <= List.length (evens l)
      <= S (List.length (odds l)))%nat.
Proof.
  induction l as [|x|x y l IH] using pair_induction.
  - cbn. lia.
  - cbn. lia.
  - rewrite evens_cons, !odds_cons, evens_cons. cbn [List.length]. lia.
Qed.

Lemma deinterleave_bits01 (l : list Z) :
  bits01 l -> bits01 (evens l) /\ bits01 (odds l).
Proof.
  unfold bits01.
  induction l as [|x|x y l IH] using pair_induction; intros H.
  - split; constructor.
  - split; [assumption|constructor].
  - inversion_clear H as [|? ? Hx H']. inversion_clear H' as [|? ? Hy Hl].
    destruct (IH Hl) as [He Ho].
    rewrite evens_cons, !odds_cons, evens_cons.
    split; constructor; assumption.
Qed.

(** [decode] on the packing of a bit stream returns the centres of the cells
    of its odd-position (latitude) and even-position (longitude) bits. *)
Lemma decode_pack (self : Geohash) (bits : list Z) :
  bits01 bits ->
  List.length bits = (5 * Z.to_nat (precision self))%nat ->
  0 <= precision self ->
  List.length (odds bits) = lat_bits_of (precision self)
  /\ List.length (evens bits) = lon_bits_of (precision self)
  /\ decode self (string_of_list_ascii (pack bits))
     = Ok (midpoint (narrow (odds bits) (-90) 90),
           midpoint (narrow (evens bits) (-180) 180)).
Proof.
  intros Hb Hbits Hp.
  destruct (bits_split (precision self) Hp) as (Hle & Hsum & HLA & HLO).
  destruct (deinterleave_lengths bits) as [Hsum' Hle'].
  destruct (deinterleave_bits01 bits Hb) as [Hbe Hbo].
  assert (Hodd : List.length (odds bits) = lat_bits_of (precision self))
    by lia.
  assert (Hev : List.length (evens bits) = lon_bits_of (precision self))
    by lia.
  split; [assumption|]. split; [assumption|].
  unfold decode. rewrite list_ascii_of_string_of_list_ascii.
  assert (Hlen : len (pack bits) = precision self).
  { unfold len. rewrite (pack_length (Z.to_nat (precision self))); [lia|].
    assumption. }
  rewrite Hlen, Z.eqb_refl.
  rewrite (pack_alphabet (Z.to_nat (precision self))) by assumption.
  cbn [negb].
  rewrite (value_loop (Z.to_nat (precision self))) by assumption.
  cbn [bind]. rewrite <- HLO, <- HLA.
  replace (precision self * 5) with (len bits) by (unfold len; lia).
  rewrite deinterleave_loop by assumption.
  rewrite <- Hodd, <- Hev.
  fold (len (odds bits)). fold (len (evens bits)).
  rewrite !_decode_bitstream_horner by assumption.
  reflexivity.
Qed.

(** What [decode] does on any valid code, in terms of its bit stream. *)
Lemma decode_unpack (self : Geohash) (code : string) :
  valid_code self code ->
  let bits := unpack (list_ascii_of_string code) in
  bits01 bits
  /\ List.length (odds bits) = lat_bits_of (precision self)
  /\ List.length (evens bits) = lon_bits_of (precision self)
  /\ string_of_list_ascii (pack bits) = code
  /\ decode self code
     = Ok (midpoint (narrow (odds bits) (-90) 90),
           midpoint (narrow (evens bits) (-180) 180)).
Proof.
  intros [Hlen Hall] bits.
  destruct (unpack_pack _ Hall) as (Hb & Hbits & Hpack). fold bits in Hb, Hbits, Hpack.
  assert (Hp : 0 <= precision self) by (unfold len in Hlen; lia).
  assert (Hbits' : List.length bits = (5 * Z.to_nat (precision self))%nat)
    by (unfold len in Hlen; lia).
  destruct (decode_pack self bits Hb Hbits' Hp) as (Hodd & Hev & Hdec).
  rewrite Hpack, string_of_list_ascii_of_string in Hdec.
  repeat split; try assumption.
  rewrite Hpack. apply string_of_list_ascii_of_string.
Qed.

Local Open Scope Q_scope.

Lemma Qgt_bool_Qeq (v v' m : Q) : v == v' -> Qgt_bool v m = Qgt_bool v' m.
Proof.
  intros H. destruct (Qgt_bool v' m) eqn:E.
  - apply Qgt_bool_true. apply Qgt_bool_true in E. rewrite H. assumption.
  - apply Qgt_bool_false. apply Qgt_bool_false in E. rewrite H. assumption.
Qed.

(** The bits of a value depend on the value only, not on how the rational
    is written. *)
Lemma bisect_Qeq (n : nat) (v v' lo hi : Q) :
  v == v' -> bisect n v lo hi = bisect n v' lo hi.
Proof.
  intros H. revert lo hi. induction n as [|n IH]; intros lo hi.
  - reflexivity.
  - cbn [bisect]. rewrite (Qgt_bool_Qeq v v' _ H).
    destruct (Qgt_bool v' _); f_equal; apply IH.
Qed.

Lemma code_of_Qeq (p : Z) (lat lat' lon lon' : Q) :
  lat == lat' -> lon == lon' -> code_of p lat lon = code_of p lat' lon'.
Proof.
  intros Hlat Hlon. unfold code_of, code_bits.
  rewrite (bisect_Qeq _ lat lat' _ _ Hlat), (bisect_Qeq _ lon lon' _ _ Hlon).
  reflexivity.
Qed.

(** A value in the interval of a bit list, the lower end excluded, bisects
    to that list: a value on the boundary of two cells belongs to the lower
    one. *)
Lemma bisect_inside_closed (bits : list Z) (c lo hi : Q) :
  bits01 bits -> lo < hi ->
  fst (narrow bits lo hi) < c -> c <= snd (narrow bits lo hi) ->
  bisect (List.length bits) c lo hi = bits.
Proof.
  intros Hb. revert lo hi.
  induction Hb as [|b bits Hbit Hb IH]; intros lo hi Hlt Ha Hc.
  - reflexivity.
  - cbn [List.length bisect]. cbn [narrow] in Ha, Hc.
    destruct Hbit; subst b; cbn [Z.eqb negb] in Ha, Hc.
    + destruct (narrow_bounds bits lo ((lo + hi) / 2)) as (H1 & H2 & H3);
        [qlra|].
      assert (E : Qgt_bool c ((lo + hi) / 2) = false)
        by (apply Qgt_bool_false; lra).
      rewrite E. f_equal. apply IH; [qlra|assumption..].
    + destruct (narrow_bounds bits ((lo + hi) / 2) hi) as (H1 & H2 & H3);
        [qlra|].
      assert (E : Qgt_bool c ((lo + hi) / 2) = true)
        by (apply Qgt_bool_true; lra).
      rewrite E. f_equal. apply IH; [qlra|assumption..].
Qed.

(** Every point inside the two intervals of a valid code, lower ends
    excluded, has that code. *)
Lemma code_of_inside (self : Geohash) (code : string) (lat lon : Q) :
  valid_code self code ->
  let bits := unpack (list_ascii_of_string code) in
  fst (narrow (odds bits) (-90) 90) < lat ->
  lat <= snd (narrow (odds bits) (-90) 90) ->
  fst (narrow (evens bits) (-180) 180) < lon ->
  lon <= snd (narrow (evens bits) (-180) 180) ->
  code_of (precision self) lat lon = code.
Proof.
  intros Hvalid bits Hlat1 Hlat2 Hlon1 Hlon2.
  destruct (decode_unpack self code Hvalid) as (Hb & Hodd & Hev & Hpack & _).
  fold bits in Hb, Hodd, Hev, Hpack.
  destruct (deinterleave_bits01 bits Hb) as [Hbe Hbo].
  unfold code_of, code_bits. rewrite <- Hodd, <- Hev.
  rewrite !bisect_inside_closed by (try assumption; lra).
  rewrite interleave_deinterleave. assumption.
Qed.

Lemma code_of_decoded (self : Geohash) (code : string) (lat lon : Q) :
  decode self code = Ok (lat, lon) ->
  code_of (precision self) lat lon = code.
Proof.
  intros Hdec.
  pose proof (decode_accepts_valid self code _ Hdec) as Hvalid.
  destruct (decode_unpack self code Hvalid) as (_ & _ & _ & _ & Hdec').
  rewrite Hdec in Hdec'. injection Hdec' as -> ->.
  set (bits := unpack (list_ascii_of_string code)).
  destruct (midpoint_inside (narrow (odds bits) (-90) 90))
    as [A1 A2]; [apply narrow_strict; lra|].
  destruct (midpoint_inside (narrow (evens bits) (-180) 180))
    as [B1 B2]; [apply narrow_strict; lra|].
  apply code_of_inside; try assumption; fold bits; lra.
Qed.

(** X1: on a codec of precision 1 to 12, [encode] after [decode] is the
    identity on valid codes. *)
Theorem encode_decode_identity (self : Geohash) (code : string) :
  valid_codec self -> valid_code self code ->
  exists lat lon,
    decode self code = Ok (lat, lon) /\ encode self lat lon = Ok code.
Proof.
  intros _ Hvalid.
  destruct (decode_valid self code Hvalid) as (lat & lon & Hdec & Hin).
  exists lat, lon. split; [assumption|].
  destruct (decode_precision_nonneg self code _ Hdec) as [Hp _].
  rewrite encode_ok by assumption. f_equal.
  apply code_of_decoded. assumption.
Qed.

(** X2: on a codec of precision 1 to 12, two codes that [decode] maps to the
    same coordinate are the same code. *)
Theorem decode_injective (self : Geohash) (code1 code2 : string)
  (lat1 lon1 lat2 lon2 : Q) :
  valid_codec self ->
  decode self code1 = Ok (lat1, lon1) ->
  decode self code2 = Ok (lat2, lon2) ->
  lat1 == lat2 -> lon1 == lon2 ->
  code1 = code2.
Proof.
  intros _ H1 H2 Hlat Hlon.
  rewrite <- (code_of_decoded self code1 lat1 lon1 H1).
  rewrite <- (code_of_decoded self code2 lat2 lon2 H2).
  apply code_of_Qeq; assumption.
Qed.

Lemma decode_step_strict (s n : Z) (lo hi : Q) (l : list Z) (st : Q * Q) :
  lo <= fst st /\ fst st < snd st /\ snd st <= hi ->
  let st' := fold_left (decode_step s n) l st in
  lo <= fst st' /\ fst st' < snd st' /\ snd st' <= hi.
Proof.
  revert st. induction l as [|i l IH]; intros [a b] H; cbn [fold_left].
  - assumption.
  - apply IH. unfold decode_step. cbn [fst snd] in *.
    destruct (negb _); cbn [fst snd]; qlra.
Qed.

Lemma _decode_bitstream_strict (s n : Z) (lo hi : Q) :
  lo < hi ->
  lo < _decode_bitstream s n lo hi /\ _decode_bitstream s n lo hi < hi.
Proof.
  intros Hlt. unfold _decode_bitstream.
  pose proof (decode_step_strict s n lo hi (range n) (lo, hi)) as H.
  cbn [fst snd] in H. cbv zeta in H.
  destruct (fold_left _ _ _) as [a b]. cbn [fst snd] in H.
  destruct H as (H1 & H2 & H3); [lra|]. qlra.
Qed.

Lemma decode_strict (self : Geohash) (code : string) (lat lon : Q) :
  decode self code = Ok (lat, lon) ->
  (-90 < lat /\ lat < 90) /\ (-180 < lon /\ lon < 180).
Proof.
  unfold decode.
  destruct (negb (len (list_ascii_of_string code) =? precision self)%Z);
    [discriminate|].
  destruct (negb (forallb _ _)); [discriminate|].
  destruct (for_each _ _ _) as [v|e]; [|discriminate]. cbn [bind].
  destruct (fold_left _ _ _) as [lat_stream lon_stream].
  intros H. injection H as <- <-.
  split; apply _decode_bitstream_strict; lra.
Qed.

(** X3: on a codec of precision 1 to 12, [decode] returns a coordinate
    exactly on the valid codes, and the coordinate is never on a pole nor on
    the antimeridian. *)
Theorem decode_succeeds_iff_valid (self : Geohash) (code : string) :
  valid_codec self ->
  (valid_code self code <-> exists c, decode self code = Ok c)
  /\ forall lat lon,
       decode self code = Ok (lat, lon) ->
       -90 < lat /\ lat < 90 /\ -180 < lon /\ lon < 180.
Proof.
  intros _. split.
  - split.
    + intros Hvalid.
      destruct (decode_valid self code Hvalid) as (lat & lon & Hdec & _).
      exists (lat, lon). assumption.
    + intros [c Hdec]. apply (decode_accepts_valid self code c Hdec).
  - intros lat lon Hdec.
    destruct (decode_strict self code lat lon Hdec) as [[? ?] [? ?]].
    repeat split; assumption.
Qed.

(** X4: [_encode_bitstream] raises the out-of-range error exactly when the
    value is outside the closed interval of its bounds; otherwise it returns
    [bit_length] bits (none when [bit_length] is negative), each 0 or 1. *)
Theorem _encode_bitstream_contract (value lo hi : Q) (bit_length : Z) :
  (~ (lo <= value <= hi) ->
   _encode_bitstream value lo hi bit_length
   = Raise (ValueError ValueOutOfBounds))
  /\ (lo <= value <= hi ->
      exists bits,
        _encode_bitstream value lo hi bit_length = Ok bits
        /\ len bits = Z.max 0 bit_length
        /\ Forall (fun b => b = 0%Z \/ b = 1%Z) bits).
Proof.
  split.
  - apply _encode_bitstream_out.
  - intros [Hlo Hhi]. eexists.
    split; [apply _encode_bitstream_ok; assumption|].
    split.
    + unfold len. rewrite bisect_length. lia.
    + apply bisect_bits01.
Qed.

(** X5: [encode] raises the out-of-range error exactly when the latitude is
    outside [-90, 90] or the longitude is outside [-180, 180]. *)
Theorem encode_range_error (self : Geohash) (lat lon : Q) :
  valid_codec self ->
  (encode self lat lon = Raise (ValueError ValueOutOfBounds)
   <-> ~ in_range lat lon).
Proof.
  intros Hc. split.
  - intros Henc Hin. rewrite encode_ok in Henc; [discriminate| |assumption].
    unfold valid_codec in Hc. lia.
  - apply encode_out_of_range.
Qed.

(** X6: on a codec of precision 1 to 12, [get_neighbors] raises exactly when
    [decode] raises on its argument, and then the same exception. *)
Theorem get_neighbors_raises_as_decode (self : Geohash) (code : string)
  (e : exn) :
  valid_codec self ->
  (get_neighbors self code = Raise e <-> decode self code = Raise e).
Proof.
  intros _. split.
  - intros H. destruct (decode self code) as [[lat lon]|e'] eqn:Hdec.
    + rewrite (get_neighbors_ok self code lat lon Hdec) in H. discriminate.
    + unfold get_neighbors in H. rewrite Hdec in H. cbn [bind] in H.
      congruence.
  - intros H. unfold get_neighbors. rewrite H. reflexivity.
Qed.

(** X7: on a codec of precision 1 to 12, the cell of a valid code is the
    rectangle of one cell size centred on the decoded coordinate, without its
    south and west edges: every point whose latitude and longitude are above
    the centre minus half a cell size and at most the centre plus half a cell
    size encodes to that code. *)
Theorem cell_points_encode_to_code (self : Geohash) (code : string)
  (lat lon lat' lon' : Q) :
  valid_codec self ->
  decode self code = Ok (lat, lon) ->
  lat - fst (_get_cell_size (precision self)) / 2 < lat' ->
  lat' <= lat + fst (_get_cell_size (precision self)) / 2 ->
  lon - snd (_get_cell_size (precision self)) / 2 < lon' ->
  lon' <= lon + snd (_get_cell_size (precision self)) / 2 ->
  encode self lat' lon' = Ok code.
Proof.
  intros _ Hdec Hlat1 Hlat2 Hlon1 Hlon2.
  pose proof (decode_accepts_valid self code _ Hdec) as Hvalid.
  destruct (decode_precision_nonneg self code _ Hdec) as [Hp _].
  destruct (decode_unpack self code Hvalid)
    as (Hb & Hodd & Hev & Hpack & Hdec').
  rewrite Hdec in Hdec'. injection Hdec' as Elat Elon.
  rewrite (_get_cell_size_pow2 _ Hp) in Hlat1, Hlat2, Hlon1, Hlon2.
  cbn [fst snd] in Hlat1, Hlat2, Hlon1, Hlon2.
  set (bits := unpack (list_ascii_of_string code)) in *.
  pose proof (narrow_width_div (odds bits) (-90) 90) as Hwlat.
  pose proof (narrow_width_div (evens bits) (-180) 180) as Hwlon.
  rewrite Hodd in Hwlat. rewrite Hev in Hwlon.
  setoid_replace (90 - -90) with 180 in Hwlat by ring.
  setoid_replace (180 - -180) with 360 in Hwlon by ring.
  pose proof (narrow_bounds (odds bits) (-90) 90 ltac:(lra)) as (A1 & A2 & A3).
  pose proof (narrow_bounds (evens bits) (-180) 180 ltac:(lra))
    as (B1 & B2 & B3).
  unfold midpoint in Elat, Elon.
  set (h := 180 / pow2 (lat_bits_of (precision self))) in *.
  set (w := 360 / pow2 (lon_bits_of (precision self))) in *.
  set (la := fst (narrow (odds bits) (-90) 90)) in *.
  set (lb := snd (narrow (odds bits) (-90) 90)) in *.
  set (oa := fst (narrow (evens bits) (-180) 180)) in *.
  set (ob := snd (narrow (evens bits) (-180) 180)) in *.
  assert (Hla : la < lat' /\ lat' <= lb)
    by (subst lat; clearbody h la lb; qlra).
  assert (Hlo : oa < lon' /\ lon' <= ob)
    by (subst lon; clearbody w oa ob; qlra).
  rewrite encode_ok; [|assumption|split; lra].
  f_equal. apply code_of_inside; try assumption; fold bits; tauto.
Qed.

(** X8: the round trip is tight: the coordinate [decode] returns for the code
    of a coordinate differs from it by at most half of each component of
    [_get_cell_size]. *)
Theorem roundtrip_half_cell (self : Geohash) (lat lon : Q) :
  valid_codec self -> in_range lat lon ->
  exists code lat' lon',
    encode self lat lon = Ok code
    /\ decode self code = Ok (lat', lon')
    /\ Qabs (lat' - lat) <= fst (_get_cell_size (precision self)) / 2
    /\ Qabs (lon' - lon) <= snd (_get_cell_size (precision self)) / 2.
Proof.
  intros Hc [Hlat Hlon].
  assert (Hp : (0 <= precision self)%Z) by (unfold valid_codec in Hc; lia).
  exists (code_of (precision self) lat lon).
  exists (cell_center (lat_bits_of (precision self)) lat (-90) 90).
  exists (cell_center (lon_bits_of (precision self)) lon (-180) 180).
  split; [apply encode_ok; [assumption|split; assumption]|].
  split; [apply decode_code_of; assumption|].
  rewrite (_get_cell_size_pow2 _ Hp). cbn [fst snd].
  split.
  - pose proof (cell_center_error (lat_bits_of (precision self)) lat _ _ Hlat)
      as He.
    setoid_replace (90 - -90) with 180 in He by ring. exact He.
  - pose proof (cell_center_error (lon_bits_of (precision self)) lon _ _ Hlon)
      as He.
    setoid_replace (180 - -180) with 360 in He by ring. exact He.
Qed.

Lemma horner_cons (b : Z) (l : list Z) :
  horner (b :: l) 0 = (b * 2 ^ len l + horner l 0)%Z.
Proof.
  cbn [horner fold_left]. fold (horner l (2 * 0 + b)%Z).
  rewrite horner_acc. ring.
Qed.

Lemma bisect_monotone (n : nat) (v1 v2 lo hi : Q) :
  v1 <= v2 ->
  (horner (bisect n v1 lo hi) 0 <= horner (bisect n v2 lo hi) 0)%Z.
Proof.
  intros Hle. revert lo hi. induction n as [|n IH]; intros lo hi.
  - cbn. lia.
  - cbn [bisect].
    destruct (Qgt_bool v1 ((lo + hi) / 2)) eqn:E1;
      destruct (Qgt_bool v2 ((lo + hi) / 2)) eqn:E2;
      rewrite !horner_cons; unfold len; rewrite !bisect_length.
    + specialize (IH ((lo + hi) / 2) hi). lia.
    + apply Qgt_bool_true in E1. apply Qgt_bool_false in E2. lra.
    + pose proof (horner_bound _ (bisect_bits01 n v1 lo ((lo + hi) / 2))) as B1.
      pose proof (horner_bound _ (bisect_bits01 n v2 ((lo + hi) / 2) hi)) as B2.
      unfold len in B1, B2. rewrite bisect_length in B1, B2. lia.
    + specialize (IH lo ((lo + hi) / 2)). lia.
Qed.

(** X9: [_encode_bitstream] preserves order: of two values within the bounds,
    the larger one gets a bit list that, read as a binary number most
    significant bit first, is at least as large. *)
Theorem _encode_bitstream_monotone (v1 v2 lo hi : Q) (bit_length : Z) :
  lo <= v1 -> v1 <= v2 -> v2 <= hi ->
  exists bits1 bits2,
    _encode_bitstream v1 lo hi bit_length = Ok bits1
    /\ _encode_bitstream v2 lo hi bit_length = Ok bits2
    /\ (horner bits1 0 <= horner bits2 0)%Z.
Proof.
  intros H1 H12 H2.
  exists (bisect (Z.to_nat bit_length) v1 lo hi).
  exists (bisect (Z.to_nat bit_length) v2 lo hi).
  split; [apply _encode_bitstream_ok; lra|].
  split; [apply _encode_bitstream_ok; lra|].
  apply bisect_monotone. assumption.
Qed.

(** More rounds of bisection only append bits. *)
Lemma bisect_prefix (n k : nat) (v lo hi : Q) :
  exists rest, bisect (n + k) v lo hi = bisect n v lo hi ++ rest.
Proof.
  revert lo hi. induction n as [|n IH]; intros lo hi.
  - eexists. reflexivity.
  - cbn [Nat.add bisect].
    destruct (Qgt_bool v ((lo + hi) / 2)).
    + destruct (IH ((lo + hi) / 2) hi) as [rest ->]. eexists. reflexivity.
    + destruct (IH lo ((lo + hi) / 2)) as [rest ->]. eexists. reflexivity.
Qed.

Lemma interleave_prefix (xs ys xs' ys' : list Z) :
  (List.length ys <= List.length xs <= S (List.length ys))%nat ->
  exists rest,
    interleave (xs ++ xs') (ys ++ ys') = interleave xs ys ++ rest.
Proof.
  revert ys. induction xs as [|x xs IH]; intros ys Hlen.
  - destruct ys; cbn in Hlen; [|lia]. eexists. reflexivity.
  - destruct ys as [|y ys].
    + destruct xs; cbn in Hlen; [|lia]. cbn [app].
      destruct ys'; eexists; reflexivity.
    + cbn [app interleave].
      destruct (IH ys) as [rest ->]; [cbn in Hlen; lia|].
      eexists. reflexivity.
Qed.

Lemma pack_app (p : nat) (bits rest : list Z) :
  List.length bits = (5 * p)%nat ->
  pack (bits ++ rest) = (pack bits ++ pack rest)%list.
Proof.
  revert bits. induction p as [|p IH]; intros bits Hlen.
  - destruct bits; [reflexivity|discriminate].
  - destruct bits as [|b0 [|b1 [|b2 [|b3 [|b4 bits]]]]];
      try (cbn in Hlen; lia).
    cbn [app pack]. rewrite IH by (cbn in Hlen; lia). reflexivity.
Qed.

Lemma string_of_list_ascii_app (a b : list ascii) :
  string_of_list_ascii (a ++ b)
  = (string_of_list_ascii a ++ string_of_list_ascii b)%string.
Proof. induction a as [|c a IH]; cbn; [reflexivity|]. rewrite IH. reflexivity. Qed.

Lemma bits_of_monotone (p q : Z) :
  (0 <= p <= q)%Z ->
  (lat_bits_of p <= lat_bits_of q)%nat /\ (lon_bits_of p <= lon_bits_of q)%nat.
Proof.
  intros H. unfold lat_bits_of, lon_bits_of.
  pose proof (Z.div_mod (p * 5) 2 ltac:(lia)).
  pose proof (Z.mod_pos_bound (p * 5) 2 ltac:(lia)).
  pose proof (Z.div_mod (q * 5) 2 ltac:(lia)).
  pose proof (Z.mod_pos_bound (q * 5) 2 ltac:(lia)).
  lia.
Qed.

(** X10: the code of a coordinate at a lower precision is a prefix of its code
    at any higher precision. *)
Theorem encode_prefix (self self' : Geohash) (lat lon : Q) :
  valid_codec self -> valid_codec self' ->
  (precision self <= precision self')%Z ->
  in_range lat lon ->
  exists code code' suffix,
    encode self lat lon = Ok code
    /\ encode self' lat lon = Ok code'
    /\ code' = (code ++ suffix)%string.
Proof.
  intros Hc Hc' Hle Hin. unfold valid_codec in Hc, Hc'.
  rewrite !encode_ok by (try assumption; lia).
  destruct (bits_of_monotone (precision self) (precision self') ltac:(lia))
    as [HLA HLO].
  destruct (bisect_prefix (lat_bits_of (precision self))
              (lat_bits_of (precision self') - lat_bits_of (precision self))
              lat (-90) 90) as [rlat Hlat].
  destruct (bisect_prefix (lon_bits_of (precision self))
              (lon_bits_of (precision self') - lon_bits_of (precision self))
              lon (-180) 180) as [rlon Hlon].
  replace (lat_bits_of (precision self)
           + (lat_bits_of (precision self') - lat_bits_of (precision self)))%nat
    with (lat_bits_of (precision self')) in Hlat by lia.
  replace (lon_bits_of (precision self)
           + (lon_bits_of (precision self') - lon_bits_of (precision self)))%nat
    with (lon_bits_of (precision self')) in Hlon by lia.
  destruct (bits_split (precision self) ltac:(lia)) as (Hsplit & _).
  destruct (interleave_prefix
              (bisect (lon_bits_of (precision self)) lon (-180) 180)
              (bisect (lat_bits_of (precision self)) lat (-90) 90) rlon rlat)
    as [rest Hrest]; [rewrite !bisect_length; assumption|].
  exists (code_of (precision self) lat lon).
  exists (code_of (precision self') lat lon).
  exists (string_of_list_ascii (pack rest)).
  split; [reflexivity|]. split; [reflexivity|].
  unfold code_of at 1. unfold code_bits. rewrite Hlat, Hlon, Hrest.
  rewrite (pack_app (Z.to_nat (precision self))).
  - apply string_of_list_ascii_app.
  - apply (code_bits_length (precision self) lat lon). lia.
Qed.

(** X11: for a precision (or code length) from 0 to 12 both components of
    [_get_cell_size] are positive; for an even precision the cell is twice
    as wide as high, for an odd precision as wide as high (in degrees). *)
Theorem _get_cell_size_shape (p : Z) :
  (0 <= p <= 12)%Z ->
  0 < fst (_get_cell_size p) /\ 0 < snd (_get_cell_size p)
  /\ (Z.even p = true ->
      snd (_get_cell_size p) == 2 * fst (_get_cell_size p))
  /\ (Z.odd p = true ->
      snd (_get_cell_size p) == fst (_get_cell_size p)).
Proof.
  intros [Hp _]. rewrite (_get_cell_size_pow2 p Hp). cbn [fst snd].
  split; [apply lat_height_pos|]. split; [apply lon_width_pos|].
  pose proof (pow2_ge_1 (lat_bits_of p)) as Hpos.
  split.
  - intros He. apply Z.even_spec in He as [k ->].
    replace (lon_bits_of (2 * k)) with (lat_bits_of (2 * k)).
    + field. lra.
    + unfold lat_bits_of, lon_bits_of.
      replace (2 * k * 5)%Z with (5 * k * 2)%Z by lia.
      rewrite Z.div_mul by lia. lia.
  - intros Ho. apply Z.odd_spec in Ho as [k ->].
    replace (lon_bits_of (2 * k + 1)) with (S (lat_bits_of (2 * k + 1))).
    + rewrite pow2_S. field. lra.
    + unfold lat_bits_of, lon_bits_of.
      replace ((2 * k + 1) * 5 / 2)%Z with (5 * k + 2)%Z; [lia|].
      apply Z.div_unique with 1%Z; lia.
Qed.

(** * Cells as a lattice *)

Lemma pow2_pos (n : nat) : 0 < pow2 n.
Proof. pose proof (pow2_ge_1 n). lra. Qed.

Lemma cell_width_pos (n : nat) (lo hi : Q) : lo < hi -> 0 < (hi - lo) / pow2 n.
Proof. intros H. apply Qlt_shift_div_l; [apply pow2_pos|lra]. Qed.

Lemma inject_Z_horner_cons (b : Z) (l : list Z) :
  inject_Z (horner (b :: l) 0)
  == inject_Z b * pow2 (List.length l) + inject_Z (horner l 0).
Proof.
  rewrite horner_cons, inject_Z_plus, inject_Z_mult. reflexivity.
Qed.

(** The lower end of the interval of a bit list is its binary number times
    the cell size above the lower bound. *)
Lemma narrow_fst_horner (bits : list Z) (lo hi : Q) :
  bits01 bits ->
  fst (narrow bits lo hi)
  == lo + inject_Z (horner bits 0) * ((hi - lo) / pow2 (List.length bits)).
Proof.
  intros Hb. revert lo hi.
  induction Hb as [|b bits Hbit Hb IH]; intros lo hi.
  - cbn [narrow fst horner fold_left]. change (inject_Z 0) with 0. ring.
  - rewrite inject_Z_horner_cons. cbn [List.length]. rewrite pow2_S.
    pose proof (pow2_pos (List.length bits)) as Hpos.
    cbn [narrow]. destruct Hbit; subst b; cbn [Z.eqb negb]; rewrite IH.
    + change (inject_Z 0) with 0. field. lra.
    + change (inject_Z 1) with 1. field. lra.
Qed.

Lemma midpoint_horner (bits : list Z) (lo hi : Q) :
  bits01 bits ->
  midpoint (narrow bits lo hi)
  == lo + (2 * inject_Z (horner bits 0) + 1)
          * ((hi - lo) / pow2 (List.length bits)) / 2.
Proof.
  intros Hb. unfold midpoint.
  pose proof (narrow_fst_horner bits lo hi Hb) as Ha.
  pose proof (narrow_width_div bits lo hi) as Hw.
  set (a := fst _) in *. set (b := snd _) in *.
  set (h := (hi - lo) / pow2 _) in *.
  setoid_replace b with (a + h) by lra.
  rewrite Ha. field.
Qed.

Lemma Qmult_nonneg_cancel (x h : Q) : 0 < h -> 0 <= x * h -> 0 <= x.
Proof.
  intros Hh Hx. destruct (Qlt_le_dec x 0) as [Hneg|]; [|assumption].
  exfalso. assert (x * h < 0); [|lra].
  setoid_replace (x * h) with (- ((- x) * h)) by ring.
  assert (0 < (- x) * h) by (apply Qmult_lt_0_compat; lra). lra.
Qed.

(** A cell centre of the lattice of [n] rounds is the centre of its own
    cell. *)
Lemma cell_center_fixed (n : nat) (v lo hi : Q) (j : Z) :
  lo < hi -> lo <= v <= hi ->
  v == lo + (2 * inject_Z j + 1) * ((hi - lo) / pow2 n) / 2 ->
  cell_center n v lo hi == v.
Proof.
  intros Hlt Hv Hform.
  pose proof (narrow_fst_horner _ lo hi (bisect_bits01 n v lo hi)) as Ha.
  pose proof (narrow_width_div (bisect n v lo hi) lo hi) as Hw.
  pose proof (bisect_contains n v lo hi Hv) as [Hav Hvb].
  rewrite bisect_length in Ha, Hw.
  pose proof (cell_width_pos n lo hi Hlt) as Hh.
  unfold cell_center, midpoint.
  set (m := horner (bisect n v lo hi) 0) in *.
  set (a := fst _) in *. set (b := snd _) in *.
  set (h := (hi - lo) / pow2 n) in *. clearbody a b h m.
  assert (H1 : 0 <= (2 * inject_Z j + 1 - 2 * inject_Z m) * h).
  { setoid_replace ((2 * inject_Z j + 1 - 2 * inject_Z m) * h)
      with (2 * ((lo + (2 * inject_Z j + 1) * h / 2)
                 - (lo + inject_Z m * h))) by field.
    rewrite <- Hform, <- Ha. lra. }
  assert (H2 : 0 <= (2 * inject_Z m + 2 - (2 * inject_Z j + 1)) * h).
  { setoid_replace ((2 * inject_Z m + 2 - (2 * inject_Z j + 1)) * h)
      with (2 * ((lo + inject_Z m * h) + h
                 - (lo + (2 * inject_Z j + 1) * h / 2))) by field.
    rewrite <- Hform, <- Ha. lra. }
  apply (Qmult_nonneg_cancel _ h Hh) in H1, H2.
  assert (E1 : 2 * inject_Z j + 1 - 2 * inject_Z m
               == inject_Z (2 * j + 1 - 2 * m)).
  { unfold Z.sub. rewrite !inject_Z_plus, inject_Z_opp, !inject_Z_mult.
    reflexivity. }
  assert (E2 : 2 * inject_Z m + 2 - (2 * inject_Z j + 1)
               == inject_Z (2 * m + 2 - (2 * j + 1))).
  { unfold Z.sub.
    rewrite !inject_Z_plus, inject_Z_opp, !inject_Z_plus, !inject_Z_mult.
    reflexivity. }
  rewrite E1 in H1. rewrite E2 in H2.
  change 0 with (inject_Z 0) in H1, H2.
  rewrite <- Zle_Qle in H1, H2.
  assert (Hm : m = j) by lia. subst m.
  setoid_replace b with (a + h) by lra.
  rewrite Ha, Hform. field.
Qed.

(** Moving a cell centre by a whole number of cell sizes, within the bounds,
    gives a cell centre again. *)
Lemma cell_center_shifted (bits : list Z) (v lo hi : Q) (k : Z) :
  bits01 bits -> lo < hi -> lo <= v <= hi ->
  v == midpoint (narrow bits lo hi)
       + inject_Z k * ((hi - lo) / pow2 (List.length bits)) ->
  cell_center (List.length bits) v lo hi == v.
Proof.
  intros Hb Hlt Hv Hform.
  apply (cell_center_fixed _ v lo hi (horner bits 0 + k)); try assumption.
  rewrite Hform, (midpoint_horner bits lo hi Hb), inject_Z_plus. field.
  pose proof (pow2_pos (List.length bits)). lra.
Qed.

(** * Neighbours on the lattice *)

Lemma clamp_lat_id (x : Q) : -90 <= x <= 90 -> clamp_lat x = x.
Proof.
  intros [H1 H2]. unfold clamp_lat, Qlt_bool.
  assert (E1 : Qgt_bool x 90 = false) by (apply Qgt_bool_false; assumption).
  assert (E2 : Qgt_bool (-90) x = false) by (apply Qgt_bool_false; assumption).
  rewrite E1, E2. reflexivity.
Qed.

Lemma wrap_lon_id (x : Q) : -180 <= x <= 180 -> wrap_lon x = x.
Proof.
  intros [H1 H2]. unfold wrap_lon, Qlt_bool.
  assert (E1 : Qgt_bool x 180 = false) by (apply Qgt_bool_false; assumption).
  assert (E2 : Qgt_bool (-180) x = false)
    by (apply Qgt_bool_false; assumption).
  rewrite E1, E2. reflexivity.
Qed.

Lemma wrap_lon_west (x : Q) : x < -180 -> wrap_lon x = x + 360.
Proof.
  intros H. unfold wrap_lon, Qlt_bool.
  assert (E1 : Qgt_bool x 180 = false) by (apply Qgt_bool_false; lra).
  assert (E2 : Qgt_bool (-180) x = true) by (apply Qgt_bool_true; assumption).
  rewrite E1, E2. reflexivity.
Qed.

(** Each entry of the table of [get_neighbors] moves by -1, 0 or 1 cell in
    each direction. *)
Lemma directions_steps (h w dlat dlon : Q) (d : string) :
  In (d, (dlat, dlon)) (directions h w) ->
  exists kh kw : Z, dlat == inject_Z kh * h /\ dlon == inject_Z kw * w.
Proof.
  unfold directions. cbn [In]. intros H.
  repeat (destruct H as [H|H];
          [injection H as <- <- <-;
           first
             [ exists 1%Z, 0%Z; split; cbn; ring
             | exists (-1)%Z, 0%Z; split; cbn; ring
             | exists 0%Z, 1%Z; split; cbn; ring
             | exists 0%Z, (-1)%Z; split; cbn; ring
             | exists 1%Z, 1%Z; split; cbn; ring
             | exists (-1)%Z, 1%Z; split; cbn; ring
             | exists 1%Z, (-1)%Z; split; cbn; ring
             | exists (-1)%Z, (-1)%Z; split; cbn; ring ]|]).
  contradiction.
Qed.

Lemma inject_Z_pow2 (n : nat) : inject_Z (2 ^ Z.of_nat n) = pow2 n.
Proof. reflexivity. Qed.

(** The neighbour in a direction decodes to the centre moved by that
    direction's offset: the longitude always, wrapped across the
    antimeridian; the latitude when the offset stays between the poles. *)
Lemma neighbor_decodes (self : Geohash) (code : string)
  (lat lon dlat dlon : Q) (kh kw : Z) :
  decode self code = Ok (lat, lon) ->
  dlat == inject_Z kh * (180 / pow2 (lat_bits_of (precision self))) ->
  dlon == inject_Z kw * (360 / pow2 (lon_bits_of (precision self))) ->
  -360 <= dlon <= 360 ->
  exists clat clon,
    decode self
      (code_of (precision self) (clamp_lat (lat + dlat))
         (wrap_lon (lon + dlon)))
    = Ok (clat, clon)
    /\ clon == wrap_lon (lon + dlon)
    /\ (-90 <= lat + dlat <= 90 -> clat == lat + dlat).
Proof.
  intros Hdec Hdlat Hdlon Hrange.
  pose proof (decode_accepts_valid self code _ Hdec) as Hvalid.
  destruct (decode_precision_nonneg self code _ Hdec) as [Hp _].
  pose proof (decode_in_range self code lat lon Hdec) as [Hlat Hlon].
  destruct (decode_unpack self code Hvalid)
    as (Hb & Hodd & Hev & _ & Hdec').
  rewrite Hdec in Hdec'. injection Hdec' as Elat Elon.
  set (bits := unpack (list_ascii_of_string code)) in *.
  destruct (deinterleave_bits01 bits Hb) as [Hbe Hbo].
  eexists. eexists. split; [apply decode_code_of; assumption|].
  pose proof (pow2_pos (lon_bits_of (precision self))) as Hpw.
  pose proof (pow2_pos (lat_bits_of (precision self))) as Hph.
  split.
  - pose proof (wrap_lon_range (lon + dlon) ltac:(lra)) as Hwrap.
    rewrite <- Hev in *.
    destruct (Qlt_le_dec 180 (lon + dlon)) as [Heast|Hne].
    + rewrite (wrap_lon_east _ Heast) in *.
      apply (cell_center_shifted (evens bits) _ _ _
               (kw - 2 ^ Z.of_nat (List.length (evens bits))));
        try assumption; try lra.
      rewrite <- Elon, Hdlon. unfold Z.sub.
      rewrite inject_Z_plus, inject_Z_opp, inject_Z_pow2. field. lra.
    + destruct (Qlt_le_dec (lon + dlon) (-180)) as [Hwest|Hnw].
      * rewrite (wrap_lon_west _ Hwest) in *.
        apply (cell_center_shifted (evens bits) _ _ _
                 (kw + 2 ^ Z.of_nat (List.length (evens bits))));
          try assumption; try lra.
        rewrite <- Elon, Hdlon.
        rewrite inject_Z_plus, inject_Z_pow2. field. lra.
      * rewrite (wrap_lon_id (lon + dlon)) in * by lra.
        apply (cell_center_shifted (evens bits) _ _ _ kw);
          try assumption; try lra.
        rewrite <- Elon, Hdlon. field. lra.
  - intros Hin. rewrite (clamp_lat_id _ Hin). rewrite <- Hodd in *.
    apply (cell_center_shifted (odds bits) _ _ _ kh);
      try assumption; try lra.
    rewrite <- Elat, Hdlat. field. lra.
Qed.

(** X12: on a codec of precision 1 to 12, every neighbour that
    [get_neighbors] returns decodes to the centre of the adjacent cell: its longitude is the centre longitude plus the
    direction's longitude offset, wrapped once across the antimeridian, and,
    when the centre latitude plus the direction's latitude offset is within
    [-90, 90], its latitude is exactly that sum. *)
Theorem neighbors_are_adjacent_cells (self : Geohash) (code : string)
  (lat lon : Q) :
  valid_codec self ->
  decode self code = Ok (lat, lon) ->
  exists nbrs,
    get_neighbors self code = Ok nbrs
    /\ forall d c, In (d, c) nbrs ->
         exists dlat dlon clat clon,
           In (d, (dlat, dlon))
             (directions
                (fst (_get_cell_size (len (list_ascii_of_string code))))
                (snd (_get_cell_size (len (list_ascii_of_string code)))))
           /\ decode self c = Ok (clat, clon)
           /\ clon == wrap_lon (lon + dlon)
           /\ (-90 <= lat + dlat <= 90 -> clat == lat + dlat).
Proof.
  intros _ Hdec.
  destruct (decode_precision_nonneg self code _ Hdec) as [Hp Hlen].
  eexists. split; [apply get_neighbors_ok; exact Hdec|].
  intros d c Hdc. rewrite Hlen.
  apply neighbor_table_codes in Hdc as (dlat & dlon & Hd & ->).
  pose proof Hd as Hd'.
  rewrite (_get_cell_size_pow2 _ Hp) in Hd'. cbn [fst snd] in Hd'.
  destruct (directions_steps _ _ _ _ _ Hd') as (kh & kw & Hkh & Hkw).
  pose proof (directions_dlon _ _ _ _ _
                (lon_width_range (lon_bits_of (precision self))) Hd')
    as Hrange.
  destruct (neighbor_decodes self code lat lon dlat dlon kh kw
              Hdec Hkh Hkw Hrange) as (clat & clon & H1 & H2 & H3).
  exists dlat, dlon, clat, clon. repeat split; assumption.
Qed.

Lemma narrow_ones_snd (n : nat) (lo hi : Q) :
  snd (narrow (repeat 1%Z n) lo hi) = hi.
Proof.
  revert lo. induction n as [|n IH]; intros lo; [reflexivity|].
  cbn [repeat narrow Z.eqb negb]. apply IH.
Qed.

(** A value less than one cell size below the upper bound lies in the
    topmost cell. *)
Lemma bisect_highest (n : nat) (v lo hi : Q) :
  lo <= hi -> fst (narrow (repeat 1%Z n) lo hi) < v ->
  bisect n v lo hi = repeat 1%Z n.
Proof.
  revert lo. induction n as [|n IH]; intros lo Hle Hv; [reflexivity|].
  cbn [repeat narrow Z.eqb negb] in Hv. cbn [bisect repeat].
  destruct (narrow_bounds (repeat 1%Z n) ((lo + hi) / 2) hi) as (H1 & H2 & H3);
    [qlra|].
  assert (E : Qgt_bool v ((lo + hi) / 2) = true)
    by (apply Qgt_bool_true; lra).
  rewrite E. f_equal. apply IH; [qlra|assumption].
Qed.

Lemma bisect_top_row (n : nat) (v lo hi : Q) :
  lo <= hi -> hi - (hi - lo) / pow2 n < v ->
  bisect n v lo hi = repeat 1%Z n.
Proof.
  intros Hle Hv. apply bisect_highest; [assumption|].
  pose proof (narrow_width_div (repeat 1%Z n) lo hi) as Hw.
  rewrite repeat_length, narrow_ones_snd in Hw.
  set (a := fst _) in *. set (h := (hi - lo) / pow2 n) in *. clearbody a h.
  lra.
Qed.

Lemma bisect_bottom_row (n : nat) (v lo hi : Q) :
  lo <= hi -> v < lo + (hi - lo) / pow2 n ->
  bisect n v lo hi = repeat 0%Z n.
Proof.
  intros Hle Hv. apply bisect_lowest; [assumption|].
  pose proof (narrow_width_div (repeat 0%Z n) lo hi) as Hw.
  rewrite repeat_length, narrow_zeros_fst in Hw.
  set (b := snd _) in *. set (h := (hi - lo) / pow2 n) in *. clearbody b h.
  lra.
Qed.

Lemma code_of_same_bits (p : Z) (lat lat' lon lon' : Q) :
  bisect (lat_bits_of p) lat (-90) 90 = bisect (lat_bits_of p) lat' (-90) 90 ->
  bisect (lon_bits_of p) lon (-180) 180
  = bisect (lon_bits_of p) lon' (-180) 180 ->
  code_of p lat lon = code_of p lat' lon'.
Proof. intros H1 H2. unfold code_of, code_bits. rewrite H1, H2. reflexivity. Qed.

(** X13: on a codec of precision 1 to 12, at a pole the table of
    [get_neighbors] degenerates.  When the centre
    latitude plus one cell height exceeds 90, the north neighbour is the code
    itself and the north-east and north-west neighbours are the east and west
    neighbours; likewise to the south when the centre latitude minus one cell
    height is below -90. *)
Theorem pole_neighbors_degenerate (self : Geohash) (code : string)
  (lat lon : Q) :
  valid_codec self ->
  decode self code = Ok (lat, lon) ->
  exists nbrs,
    get_neighbors self code = Ok nbrs
    /\ (90 < lat + fst (_get_cell_size (len (list_ascii_of_string code))) ->
        dict_get nbrs "n" = Some code
        /\ dict_get nbrs "ne" = dict_get nbrs "e"
        /\ dict_get nbrs "nw" = dict_get nbrs "w")
    /\ (lat - fst (_get_cell_size (len (list_ascii_of_string code))) < -90 ->
        dict_get nbrs "s" = Some code
        /\ dict_get nbrs "se" = dict_get nbrs "e"
        /\ dict_get nbrs "sw" = dict_get nbrs "w").
Proof.
  intros _ Hdec.
  destruct (decode_precision_nonneg self code _ Hdec) as [Hp Hlen].
  pose proof (decode_in_range self code lat lon Hdec) as [Hlat Hlon].
  pose proof (code_of_decoded self code lat lon Hdec) as Hcode.
  eexists. split; [apply get_neighbors_ok; exact Hdec|].
  rewrite Hlen, (_get_cell_size_pow2 _ Hp). cbn [fst snd].
  pose proof (lat_height_pos (lat_bits_of (precision self))) as Hh.
  set (h := 180 / pow2 (lat_bits_of (precision self))) in *.
  set (w := 360 / pow2 (lon_bits_of (precision self))) in *.
  assert (Hlon0 : bisect (lon_bits_of (precision self))
                    (wrap_lon (lon + 0)) (-180) 180
                  = bisect (lon_bits_of (precision self)) lon (-180) 180).
  { rewrite wrap_lon_id by lra. apply bisect_Qeq. ring. }
  split.
  - intros Htop.
    assert (Hrow : forall v, 90 - h < v ->
              bisect (lat_bits_of (precision self)) v (-90) 90
              = repeat 1%Z (lat_bits_of (precision self))).
    { intros v Hv. apply bisect_top_row; [lra|].
      setoid_replace (90 - -90) with 180 by ring. exact Hv. }
    pose proof (clamp_lat_above (lat + h) ltac:(lra)) as Hcl.
    assert (Hn : bisect (lat_bits_of (precision self))
                   (clamp_lat (lat + h)) (-90) 90
                 = bisect (lat_bits_of (precision self)) lat (-90) 90)
      by (rewrite !Hrow by lra; reflexivity).
    assert (H0 : bisect (lat_bits_of (precision self))
                   (clamp_lat (lat + h)) (-90) 90
                 = bisect (lat_bits_of (precision self))
                     (clamp_lat (lat + 0)) (-90) 90).
    { rewrite (clamp_lat_id (lat + 0)) by lra.
      rewrite !Hrow by lra. reflexivity. }
    split; [|split].
    + cbn [neighbor_table dict_get String.eqb Ascii.eqb Bool.eqb].
      f_equal. rewrite <- Hcode. apply code_of_same_bits; assumption.
    + cbn [neighbor_table dict_get String.eqb Ascii.eqb Bool.eqb].
      f_equal. apply code_of_same_bits; [assumption|reflexivity].
    + cbn [neighbor_table dict_get String.eqb Ascii.eqb Bool.eqb].
      f_equal. apply code_of_same_bits; [assumption|reflexivity].
  - intros Hbot.
    assert (Hrow : forall v, v < -90 + h ->
              bisect (lat_bits_of (precision self)) v (-90) 90
              = repeat 0%Z (lat_bits_of (precision self))).
    { intros v Hv. apply bisect_bottom_row; [lra|].
      setoid_replace (90 - -90) with 180 by ring. exact Hv. }
    pose proof (clamp_lat_range (lat + - h)) as Hcl.
    assert (Hcl' : clamp_lat (lat + - h) <= -90).
    { unfold clamp_lat, Qlt_bool.
      assert (E1 : Qgt_bool (lat + - h) 90 = false)
        by (apply Qgt_bool_false; lra).
      assert (E2 : Qgt_bool (-90) (lat + - h) = true)
        by (apply Qgt_bool_true; lra).
      rewrite E1, E2. lra. }
    assert (Hn : bisect (lat_bits_of (precision self))
                   (clamp_lat (lat + - h)) (-90) 90
                 = bisect (lat_bits_of (precision self)) lat (-90) 90)
      by (rewrite !Hrow by lra; reflexivity).
    assert (H0 : bisect (lat_bits_of (precision self))
                   (clamp_lat (lat + - h)) (-90) 90
                 = bisect (lat_bits_of (precision self))
                     (clamp_lat (lat + 0)) (-90) 90).
    { rewrite (clamp_lat_id (lat + 0)) by lra.
      rewrite !Hrow by lra. reflexivity. }
    split; [|split].
    + cbn [neighbor_table dict_get String.eqb Ascii.eqb Bool.eqb].
      f_equal. rewrite <- Hcode. apply code_of_same_bits; assumption.
    + cbn [neighbor_table dict_get String.eqb Ascii.eqb Bool.eqb].
      f_equal. apply code_of_same_bits; [assumption|reflexivity].
    + cbn [neighbor_table dict_get String.eqb Ascii.eqb Bool.eqb].
      f_equal. apply code_of_same_bits; [assumption|reflexivity].
Qed.

Lemma wrap_back (lon dlon x : Q) :
  -180 < lon -> lon < 180 -> -360 <= dlon <= 360 ->
  x == wrap_lon (lon + dlon) - dlon ->
  wrap_lon x == lon.
Proof.
  intros H1 H2 Hd Hx.
  destruct (Qlt_le_dec 180 (lon + dlon)) as [Heast|Hne].
  - rewrite (wrap_lon_east _ Heast) in Hx.
    rewrite wrap_lon_west by lra. lra.
  - destruct (Qlt_le_dec (lon + dlon) (-180)) as [Hwest|Hnw].
    + rewrite (wrap_lon_west _ Hwest) in Hx.
      rewrite wrap_lon_east by lra. lra.
    + rewrite (wrap_lon_id (lon + dlon)) in Hx by lra.
      rewrite wrap_lon_id by lra. lra.
Qed.

(** Stepping to a neighbour and then by the opposite offset leads back to
    the code, when the first step is not clamped at a pole. *)
Lemma opposite_step (self : Geohash) (code : string)
  (lat lon dlat dlon dlat' dlon' : Q) (kh kw : Z) :
  decode self code = Ok (lat, lon) ->
  dlat == inject_Z kh * (180 / pow2 (lat_bits_of (precision self))) ->
  dlon == inject_Z kw * (360 / pow2 (lon_bits_of (precision self))) ->
  -360 <= dlon <= 360 ->
  -90 <= lat + dlat <= 90 ->
  dlat' == - dlat -> dlon' == - dlon ->
  exists clat clon,
    decode self
      (code_of (precision self) (clamp_lat (lat + dlat))
         (wrap_lon (lon + dlon)))
    = Ok (clat, clon)
    /\ code_of (precision self) (clamp_lat (clat + dlat'))
         (wrap_lon (clon + dlon'))
       = code.
Proof.
  intros Hdec Hkh Hkw Hrange Hin Hopp Hopp'.
  destruct (neighbor_decodes self code lat lon dlat dlon kh kw
              Hdec Hkh Hkw Hrange) as (clat & clon & Hd & Hclon & Hclat).
  specialize (Hclat Hin).
  destruct (decode_strict self code lat lon Hdec) as [[L1 L2] [O1 O2]].
  exists clat, clon. split; [assumption|].
  rewrite <- (code_of_decoded self code lat lon Hdec).
  apply code_of_Qeq.
  - rewrite clamp_lat_id by lra. lra.
  - apply (wrap_back lon dlon); try assumption. lra.
Qed.

(** X14: stepping to a neighbour and back, on a codec of precision 1 to 12.
    For every valid code, the west
    neighbour of its east neighbour and the east neighbour of its west
    neighbour are the code itself, also across the antimeridian; the south
    neighbour of its north neighbour is the code when the north neighbour is
    not clamped at the pole, and likewise the north neighbour of its south
    neighbour. *)
Theorem neighbor_roundtrip (self : Geohash) (code : string) (lat lon : Q) :
  valid_codec self ->
  decode self code = Ok (lat, lon) ->
  exists nbrs,
    get_neighbors self code = Ok nbrs
    /\ (forall e, dict_get nbrs "e" = Some e ->
        exists nbrs',
          get_neighbors self e = Ok nbrs'
          /\ dict_get nbrs' "w" = Some code)
    /\ (forall w, dict_get nbrs "w" = Some w ->
        exists nbrs',
          get_neighbors self w = Ok nbrs'
          /\ dict_get nbrs' "e" = Some code)
    /\ (lat + fst (_get_cell_size (len (list_ascii_of_string code))) <= 90 ->
        forall n, dict_get nbrs "n" = Some n ->
        exists nbrs',
          get_neighbors self n = Ok nbrs'
          /\ dict_get nbrs' "s" = Some code)
    /\ (-90 <= lat - fst (_get_cell_size (len (list_ascii_of_string code))) ->
        forall s, dict_get nbrs "s" = Some s ->
        exists nbrs',
          get_neighbors self s = Ok nbrs'
          /\ dict_get nbrs' "n" = Some code).
Proof.
  intros _ Hdec.
  destruct (decode_precision_nonneg self code _ Hdec) as [Hp Hlen].
  pose proof (decode_in_range self code lat lon Hdec) as [Hlat Hlon].
  eexists. split; [apply get_neighbors_ok; exact Hdec|].
  rewrite Hlen, (_get_cell_size_pow2 _ Hp). cbn [fst snd].
  pose proof (lat_height_pos (lat_bits_of (precision self))) as Hh.
  pose proof (lon_width_range (lon_bits_of (precision self))) as Hw.
  set (h := 180 / pow2 (lat_bits_of (precision self))) in *.
  set (w := 360 / pow2 (lon_bits_of (precision self))) in *.
  assert (Hback : forall dlat dlon dlat' dlon' kh kw c,
            dlat == inject_Z kh * h -> dlon == inject_Z kw * w ->
            -360 <= dlon <= 360 -> -90 <= lat + dlat <= 90 ->
            dlat' == - dlat -> dlon' == - dlon ->
            Some (code_of (precision self) (clamp_lat (lat + dlat))
                    (wrap_lon (lon + dlon))) = Some c ->
            exists clat clon,
              get_neighbors self c
              = Ok (neighbor_table (precision self) clat clon h w)
              /\ code_of (precision self) (clamp_lat (clat + dlat'))
                   (wrap_lon (clon + dlon'))
                 = code).
  { intros dlat dlon dlat' dlon' kh kw c Hkh Hkw Hr Hin Ho Ho' Hc.
    injection Hc as <-.
    destruct (opposite_step self code lat lon dlat dlon dlat' dlon' kh kw
                Hdec Hkh Hkw Hr Hin Ho Ho') as (clat & clon & Hd & Hcode).
    exists clat, clon. split; [|assumption].
    rewrite (get_neighbors_ok self _ clat clon Hd).
    rewrite (_get_cell_size_pow2 _ Hp). reflexivity. }
  split; [|split; [|split]].
  - intros e He.
    destruct (Hback 0 w 0 (- w) 0%Z 1%Z e) as (clat & clon & Hn & Hcode);
      try (cbn; ring); try lra; [exact He|].
    eexists. split; [exact Hn|].
    cbn [neighbor_table dict_get String.eqb Ascii.eqb Bool.eqb].
    f_equal. exact Hcode.
  - intros w' He.
    destruct (Hback 0 (- w) 0 w 0%Z (-1)%Z w') as (clat & clon & Hn & Hcode);
      try (cbn; ring); try lra; [exact He|].
    eexists. split; [exact Hn|].
    cbn [neighbor_table dict_get String.eqb Ascii.eqb Bool.eqb].
    f_equal. exact Hcode.
  - intros Hin n He.
    destruct (Hback h 0 (- h) 0 1%Z 0%Z n) as (clat & clon & Hn & Hcode);
      try (cbn; ring); try lra; [exact He|].
    eexists. split; [exact Hn|].
    cbn [neighbor_table dict_get String.eqb Ascii.eqb Bool.eqb].
    f_equal. exact Hcode.
  - intros Hin s He.
    destruct (Hback (- h) 0 h 0 (-1)%Z 0%Z s) as (clat & clon & Hn & Hcode);
      try (cbn; ring); try lra; [exact He|].
    eexists. split; [exact Hn|].
    cbn [neighbor_table dict_get String.eqb Ascii.eqb Bool.eqb].
    f_equal. exact Hcode.
Qed.

Local Close Scope Q_scope.

Local Open Scope Q_scope.

Lemma Qgt_bool_Qeq_r (v m m' : Q) : m == m' -> Qgt_bool v m = Qgt_bool v m'.
Proof.
  intros H. destruct (Qgt_bool v m') eqn:E.
  - apply Qgt_bool_true. apply Qgt_bool_true in E. rewrite H. assumption.
  - apply Qgt_bool_false. apply Qgt_bool_false in E. rewrite H. assumption.
Qed.

Lemma clamp_lat_Qeq (x y : Q) : x == y -> clamp_lat x == clamp_lat y.
Proof.
  intros H. unfold clamp_lat, Qlt_bool.
  rewrite (Qgt_bool_Qeq x y 90 H), (Qgt_bool_Qeq_r (-90) x y H).
  destruct (Qgt_bool y 90); [reflexivity|].
  destruct (Qgt_bool (-90) y); [reflexivity|assumption].
Qed.

Lemma wrap_lon_Qeq (x y : Q) : x == y -> wrap_lon x == wrap_lon y.
Proof.
  intros H. unfold wrap_lon, Qlt_bool.
  rewrite (Qgt_bool_Qeq x y 180 H), (Qgt_bool_Qeq_r (-180) x y H).
  destruct (Qgt_bool y 180); [rewrite H; reflexivity|].
  destruct (Qgt_bool (-180) y); [rewrite H; reflexivity|assumption].
Qed.

Lemma neighbor_of (self : Geohash) (code d : string) (lat lon : Q) :
  decode self code = Ok (lat, lon) ->
  neighbor self d code
  = dict_get
      (neighbor_table (precision self) lat lon
         (180 / pow2 (lat_bits_of (precision self)))
         (360 / pow2 (lon_bits_of (precision self)))) d.
Proof.
  intros Hdec. unfold neighbor.
  destruct (decode_precision_nonneg self code _ Hdec) as [Hp _].
  rewrite (get_neighbors_ok self code lat lon Hdec).
  rewrite (_get_cell_size_pow2 _ Hp). reflexivity.
Qed.

(** A step in latitude followed by a step in longitude. *)
Lemma lat_then_lon (self : Geohash) (code : string)
  (lat lon dlat dlon : Q) (kh : Z) :
  decode self code = Ok (lat, lon) ->
  dlat == inject_Z kh * (180 / pow2 (lat_bits_of (precision self))) ->
  exists clat clon,
    decode self
      (code_of (precision self) (clamp_lat (lat + dlat)) (wrap_lon (lon + 0)))
    = Ok (clat, clon)
    /\ code_of (precision self) (clamp_lat (clat + 0))
         (wrap_lon (clon + dlon))
       = code_of (precision self) (clamp_lat (lat + dlat))
           (wrap_lon (lon + dlon)).
Proof.
  intros Hdec Hkh.
  destruct (decode_precision_nonneg self code _ Hdec) as [Hp _].
  assert (H0 : 0 == inject_Z 0 * (360 / pow2 (lon_bits_of (precision self))))
    by (change (inject_Z 0) with 0; ring).
  destruct (neighbor_decodes self code lat lon dlat 0 kh 0 Hdec Hkh H0
              ltac:(lra)) as (clat & clon & Hd & Hclon & _).
  pose proof (decode_in_range self code lat lon Hdec) as [Hlat Hlon].
  rewrite (wrap_lon_id (lon + 0)) in Hclon by lra.
  exists clat, clon. split; [exact Hd|].
  rewrite (decode_code_of self _ _ Hp) in Hd. injection Hd as Eclat Eclon.
  pose proof (cell_center_range (lat_bits_of (precision self))
                (clamp_lat (lat + dlat)) (-90) 90 ltac:(lra)) as Hr.
  rewrite Eclat in Hr.
  apply code_of_same_bits.
  - rewrite clamp_lat_id by lra.
    rewrite (bisect_Qeq _ (clat + 0) clat) by ring.
    rewrite <- Eclat. apply bisect_cell_center. lra.
  - apply bisect_Qeq. apply wrap_lon_Qeq. lra.
Qed.

(** A step in longitude followed by a step in latitude. *)
Lemma lon_then_lat (self : Geohash) (code : string)
  (lat lon dlat dlon : Q) (kw : Z) :
  decode self code = Ok (lat, lon) ->
  dlon == inject_Z kw * (360 / pow2 (lon_bits_of (precision self))) ->
  -360 <= dlon <= 360 ->
  exists clat clon,
    decode self
      (code_of (precision self) (clamp_lat (lat + 0)) (wrap_lon (lon + dlon)))
    = Ok (clat, clon)
    /\ code_of (precision self) (clamp_lat (clat + dlat))
         (wrap_lon (clon + 0))
       = code_of (precision self) (clamp_lat (lat + dlat))
           (wrap_lon (lon + dlon)).
Proof.
  intros Hdec Hkw Hrange.
  destruct (decode_precision_nonneg self code _ Hdec) as [Hp _].
  assert (H0 : 0 == inject_Z 0 * (180 / pow2 (lat_bits_of (precision self))))
    by (change (inject_Z 0) with 0; ring).
  pose proof (decode_in_range self code lat lon Hdec) as [Hlat Hlon].
  destruct (neighbor_decodes self code lat lon 0 dlon 0 kw Hdec H0 Hkw
              Hrange) as (clat & clon & Hd & _ & Hclat).
  specialize (Hclat ltac:(lra)).
  exists clat, clon. split; [exact Hd|].
  rewrite (decode_code_of self _ _ Hp) in Hd. injection Hd as Eclat Eclon.
  pose proof (cell_center_range (lon_bits_of (precision self))
                (wrap_lon (lon + dlon)) (-180) 180 ltac:(lra)) as Hr.
  rewrite Eclon in Hr.
  apply code_of_same_bits.
  - apply bisect_Qeq. apply clamp_lat_Qeq. lra.
  - rewrite wrap_lon_id by lra.
    rewrite (bisect_Qeq _ (clon + 0) clon) by ring.
    rewrite <- Eclon. apply bisect_cell_center. lra.
Qed.

(** X15: a diagonal neighbour is reached by the two cardinal steps, in either
    order: on a codec of precision 1 to 12, for every valid code the
    north-east neighbour is the east
    neighbour of the north neighbour and the north neighbour of the east
    neighbour, and likewise for north-west, south-east and south-west, also
    at the poles and across the antimeridian. *)
Theorem diagonal_neighbors_compose (self : Geohash) (code : string) :
  valid_codec self -> valid_code self code ->
  walk self ["n"; "e"]%string code = walk self ["ne"]%string code
  /\ walk self ["e"; "n"]%string code = walk self ["ne"]%string code
  /\ walk self ["n"; "w"]%string code = walk self ["nw"]%string code
  /\ walk self ["w"; "n"]%string code = walk self ["nw"]%string code
  /\ walk self ["s"; "e"]%string code = walk self ["se"]%string code
  /\ walk self ["e"; "s"]%string code = walk self ["se"]%string code
  /\ walk self ["s"; "w"]%string code = walk self ["sw"]%string code
  /\ walk self ["w"; "s"]%string code = walk self ["sw"]%string code.
Proof.
  intros _ Hvalid.
  destruct (decode_valid self code Hvalid) as (lat & lon & Hdec & _).
  pose proof (lon_width_range (lon_bits_of (precision self))) as Hw.
  set (h := 180 / pow2 (lat_bits_of (precision self))) in *.
  set (w := 360 / pow2 (lon_bits_of (precision self))) in *.
  assert (Hlatlon : forall dlat dlon kh,
            dlat == inject_Z kh * h ->
            exists clat clon,
              decode self
                (code_of (precision self) (clamp_lat (lat + dlat))
                   (wrap_lon (lon + 0)))
              = Ok (clat, clon)
              /\ code_of (precision self) (clamp_lat (clat + 0))
                   (wrap_lon (clon + dlon))
                 = code_of (precision self) (clamp_lat (lat + dlat))
                     (wrap_lon (lon + dlon)))
    by (intros; eapply lat_then_lon; eassumption).
  assert (Hlonlat : forall dlat dlon kw,
            dlon == inject_Z kw * w -> -360 <= dlon <= 360 ->
            exists clat clon,
              decode self
                (code_of (precision self) (clamp_lat (lat + 0))
                   (wrap_lon (lon + dlon)))
              = Ok (clat, clon)
              /\ code_of (precision self) (clamp_lat (clat + dlat))
                   (wrap_lon (clon + 0))
                 = code_of (precision self) (clamp_lat (lat + dlat))
                     (wrap_lon (lon + dlon)))
    by (intros; eapply lon_then_lat; eassumption).
  unfold walk. cbn [fold_left].
  rewrite !(neighbor_of self code _ lat lon Hdec). fold h w.
  cbn [neighbor_table dict_get String.eqb Ascii.eqb Bool.eqb].
  repeat split.
  - destruct (Hlatlon h w 1%Z) as (clat & clon & Hd & Hc); [cbn; ring|].
    rewrite (neighbor_of self _ _ clat clon Hd). fold h w.
    cbn [neighbor_table dict_get String.eqb Ascii.eqb Bool.eqb].
    f_equal. exact Hc.
  - destruct (Hlonlat h w 1%Z) as (clat & clon & Hd & Hc);
      [cbn; ring|lra|].
    rewrite (neighbor_of self _ _ clat clon Hd). fold h w.
    cbn [neighbor_table dict_get String.eqb Ascii.eqb Bool.eqb].
    f_equal. exact Hc.
  - destruct (Hlatlon h (- w) 1%Z) as (clat & clon & Hd & Hc); [cbn; ring|].
    rewrite (neighbor_of self _ _ clat clon Hd). fold h w.
    cbn [neighbor_table dict_get String.eqb Ascii.eqb Bool.eqb].
    f_equal. exact Hc.
  - destruct (Hlonlat h (- w) (-1)%Z) as (clat & clon & Hd & Hc);
      [cbn; ring|lra|].
    rewrite (neighbor_of self _ _ clat clon Hd). fold h w.
    cbn [neighbor_table dict_get String.eqb Ascii.eqb Bool.eqb].
    f_equal. exact Hc.
  - destruct (Hlatlon (- h) w (-1)%Z) as (clat & clon & Hd & Hc);
      [cbn; ring|].
    rewrite (neighbor_of self _ _ clat clon Hd). fold h w.
    cbn [neighbor_table dict_get String.eqb Ascii.eqb Bool.eqb].
    f_equal. exact Hc.
  - destruct (Hlonlat (- h) w 1%Z) as (clat & clon & Hd & Hc);
      [cbn; ring|lra|].
    rewrite (neighbor_of self _ _ clat clon Hd). fold h w.
    cbn [neighbor_table dict_get String.eqb Ascii.eqb Bool.eqb].
    f_equal. exact Hc.
  - destruct (Hlatlon (- h) (- w) (-1)%Z) as (clat & clon & Hd & Hc);
      [cbn; ring|].
    rewrite (neighbor_of self _ _ clat clon Hd). fold h w.
    cbn [neighbor_table dict_get String.eqb Ascii.eqb Bool.eqb].
    f_equal. exact Hc.
  - destruct (Hlonlat (- h) (- w) (-1)%Z) as (clat & clon & Hd & Hc);
      [cbn; ring|lra|].
    rewrite (neighbor_of self _ _ clat clon Hd). fold h w.
    cbn [neighbor_table dict_get String.eqb Ascii.eqb Bool.eqb].
    f_equal. exact Hc.
Qed.

Local Close Scope Q_scope.

Local Open Scope Q_scope.

Lemma interleave_repeat (b : Z) (n m : nat) :
  (m <= n <= S m)%nat ->
  interleave (repeat b n) (repeat b m) = repeat b (n + m).
Proof.
  revert m. induction n as [|n IH]; intros m H.
  - destruct m; [reflexivity|lia].
  - destruct m as [|m].
    + destruct n; [reflexivity|lia].
    + cbn [repeat interleave Nat.add]. rewrite IH by lia.
      rewrite <- plus_n_Sm. reflexivity.
Qed.

Lemma pack_repeat (b : Z) (p : nat) :
  pack (repeat b (5 * p)) = repeat (base32_char (val5 b b b b b)) p.
Proof.
  induction p as [|p IH]; [reflexivity|].
  replace (5 * S p)%nat with (5 + 5 * p)%nat by lia.
  cbn [Nat.add repeat pack]. rewrite IH. reflexivity.
Qed.

Lemma code_of_repeat (p : Z) (lat lon : Q) (b : Z) :
  (0 <= p)%Z ->
  bisect (lat_bits_of p) lat (-90) 90 = repeat b (lat_bits_of p) ->
  bisect (lon_bits_of p) lon (-180) 180 = repeat b (lon_bits_of p) ->
  code_of p lat lon
  = string_of_list_ascii
      (repeat (base32_char (val5 b b b b b)) (Z.to_nat p)).
Proof.
  intros Hp Hlat Hlon. unfold code_of, code_bits. rewrite Hlat, Hlon.
  destruct (bits_split p Hp) as (Hle & Hsum & _).
  rewrite interleave_repeat by assumption.
  rewrite Hsum, pack_repeat. reflexivity.
Qed.

(** X16: the bounds of the coordinate range are accepted on a codec of
    precision 1 to 12: the south-west
    corner (-90, -180) encodes to the code made of the first character of
    the alphabet only, and the north-east corner (90, 180) to the code made
    of the last character only. *)
Theorem encode_range_corners (self : Geohash) :
  valid_codec self ->
  encode self (-90) (-180)
  = Ok (string_of_list_ascii
          (repeat "0"%char (Z.to_nat (precision self))))
  /\ encode self 90 180
     = Ok (string_of_list_ascii
             (repeat "z"%char (Z.to_nat (precision self)))).
Proof.
  intros Hc.
  assert (Hp : (0 <= precision self)%Z) by (unfold valid_codec in Hc; lia).
  split.
  - rewrite encode_ok; [|assumption|unfold in_range; lra].
    f_equal.
    apply (code_of_repeat (precision self) (-90) (-180) 0%Z Hp).
    + apply bisect_lowest; [lra|].
      pose proof (narrow_bounds (repeat 0%Z (lat_bits_of (precision self)))
                    (-90) 90 ltac:(lra)) as H.
      lra.
    + apply bisect_lowest; [lra|].
      pose proof (narrow_bounds (repeat 0%Z (lon_bits_of (precision self)))
                    (-180) 180 ltac:(lra)) as H.
      lra.
  - rewrite encode_ok; [|assumption|unfold in_range; lra].
    f_equal.
    apply (code_of_repeat (precision self) 90 180 1%Z Hp).
    + apply bisect_highest; [lra|].
      pose proof (narrow_strict (repeat 1%Z (lat_bits_of (precision self)))
                    (-90) 90 ltac:(lra)) as H.
      rewrite narrow_ones_snd in H. exact H.
    + apply bisect_highest; [lra|].
      pose proof (narrow_strict (repeat 1%Z (lon_bits_of (precision self)))
                    (-180) 180 ltac:(lra)) as H.
      rewrite narrow_ones_snd in H. exact H.
Qed.

Local Close Scope Q_scope.

(** * Instances of the further properties *)

Local Open Scope Q_scope.

Lemma encode_decode_identity_witness :
  valid_codec geo1 /\ valid_code geo1 "s"
  /\ exists lat lon,
       decode geo1 "s" = Ok (lat, lon)
       /\ encode geo1 lat lon = Ok "s"%string.
Proof.
  assert (Hc : valid_codec geo1) by (unfold valid_codec, geo1; simpl; lia).
  assert (Hv : valid_code geo1 "s") by (unfold valid_code; split; reflexivity).
  split; [exact Hc|]. split; [exact Hv|].
  exact (encode_decode_identity geo1 "s" Hc Hv).
Defined.

Lemma decode_injective_witness :
  valid_codec geo1
  /\ decode geo1 "s" = Ok (360 # 16, 1440 # 64)
  /\ (360 # 16) == (360 # 16) /\ (1440 # 64) == (1440 # 64)
  /\ "s"%string = "s"%string.
Proof.
  assert (Hd : decode geo1 "s" = Ok (360 # 16, 1440 # 64))
    by (vm_compute; reflexivity).
  assert (H1 : (360 # 16) == (360 # 16)) by reflexivity.
  assert (H2 : (1440 # 64) == (1440 # 64)) by reflexivity.
  assert (Hc : valid_codec geo1) by (unfold valid_codec, geo1; simpl; lia).
  split; [exact Hc|].
  split; [exact Hd|]. split; [exact H1|]. split; [exact H2|].
  exact (decode_injective geo1 "s" "s" _ _ _ _ Hc Hd Hd H1 H2).
Defined.

Lemma decode_succeeds_iff_valid_witness :
  valid_codec geo1 /\ valid_code geo1 "s" /\ exists c, decode geo1 "s" = Ok c.
Proof.
  assert (Hc : valid_codec geo1) by (unfold valid_codec, geo1; simpl; lia).
  assert (Hv : valid_code geo1 "s") by (unfold valid_code; split; reflexivity).
  split; [exact Hc|]. split; [exact Hv|].
  exact (proj1 (proj1 (decode_succeeds_iff_valid geo1 "s" Hc)) Hv).
Defined.

Lemma _encode_bitstream_contract_witness :
  ~ (0 <= 2 <= 1)
  /\ _encode_bitstream 2 0 1 3 = Raise (ValueError ValueOutOfBounds)
  /\ 0 <= 1 # 2 <= 1
  /\ exists bits,
       _encode_bitstream (1 # 2) 0 1 3 = Ok bits
       /\ len bits = Z.max 0 3.
Proof.
  assert (Hout : ~ (0 <= 2 <= 1)) by (intros [_ H]; revert H; lra).
  assert (Hin : 0 <= 1 # 2 <= 1) by lra.
  split; [exact Hout|].
  split; [exact (proj1 (_encode_bitstream_contract 2 0 1 3) Hout)|].
  split; [exact Hin|].
  destruct (proj2 (_encode_bitstream_contract (1 # 2) 0 1 3) Hin)
    as (bits & H1 & H2 & _).
  exists bits. split; assumption.
Defined.

Lemma encode_range_error_witness :
  valid_codec geo /\ ~ in_range 91 0
  /\ encode geo 91 0 = Raise (ValueError ValueOutOfBounds).
Proof.
  assert (Hc : valid_codec geo) by (unfold valid_codec, geo; simpl; lia).
  assert (Hout : ~ in_range 91 0) by (unfold in_range; intros [[_ H] _]; revert H; lra).
  split; [exact Hc|]. split; [exact Hout|].
  exact (proj2 (encode_range_error geo 91 0 Hc) Hout).
Defined.

Lemma get_neighbors_raises_as_decode_witness :
  valid_codec geo
  /\ decode geo "dp3wja" = Raise (ValueError InvalidCharacter)
  /\ get_neighbors geo "dp3wja" = Raise (ValueError InvalidCharacter).
Proof.
  assert (Hd : decode geo "dp3wja" = Raise (ValueError InvalidCharacter))
    by reflexivity.
  assert (Hc : valid_codec geo) by (unfold valid_codec, geo; simpl; lia).
  split; [exact Hc|]. split; [exact Hd|].
  exact (proj2 (get_neighbors_raises_as_decode geo "dp3wja" _ Hc) Hd).
Defined.

Lemma cell_points_encode_to_code_witness :
  valid_codec geo1
  /\ decode geo1 "s" = Ok (360 # 16, 1440 # 64)
  /\ (360 # 16) - fst (_get_cell_size (precision geo1)) / 2 < 45
  /\ 45 <= (360 # 16) + fst (_get_cell_size (precision geo1)) / 2
  /\ (1440 # 64) - snd (_get_cell_size (precision geo1)) / 2 < 45
  /\ 45 <= (1440 # 64) + snd (_get_cell_size (precision geo1)) / 2
  /\ encode geo1 45 45 = Ok "s"%string.
Proof.
  assert (Hd : decode geo1 "s" = Ok (360 # 16, 1440 # 64))
    by (vm_compute; reflexivity).
  assert (H1 : (360 # 16) - fst (_get_cell_size (precision geo1)) / 2 < 45)
    by (vm_compute; reflexivity).
  assert (H2 : 45 <= (360 # 16) + fst (_get_cell_size (precision geo1)) / 2)
    by (vm_compute; discriminate).
  assert (H3 : (1440 # 64) - snd (_get_cell_size (precision geo1)) / 2 < 45)
    by (vm_compute; reflexivity).
  assert (H4 : 45 <= (1440 # 64) + snd (_get_cell_size (precision geo1)) / 2)
    by (vm_compute; discriminate).
  assert (Hc : valid_codec geo1) by (unfold valid_codec, geo1; simpl; lia).
  repeat (split; [assumption|]).
  exact (cell_points_encode_to_code geo1 "s" _ _ 45 45 Hc Hd H1 H2 H3 H4).
Defined.

Lemma roundtrip_half_cell_witness :
  valid_codec geo /\ in_range willis_lat willis_lon
  /\ exists code lat' lon',
       encode geo willis_lat willis_lon = Ok code
       /\ decode geo code = Ok (lat', lon')
       /\ Qabs (lat' - willis_lat) <= fst (_get_cell_size 6) / 2
       /\ Qabs (lon' - willis_lon) <= snd (_get_cell_size 6) / 2.
Proof.
  assert (Hc : valid_codec geo) by (unfold valid_codec, geo; simpl; lia).
  assert (Hr : in_range willis_lat willis_lon)
    by (unfold in_range, willis_lat, willis_lon; lra).
  split; [exact Hc|]. split; [exact Hr|].
  exact (roundtrip_half_cell geo willis_lat willis_lon Hc Hr).
Defined.

Lemma _encode_bitstream_monotone_witness :
  0 <= 1 # 2 /\ 1 # 2 <= 3 # 4 /\ 3 # 4 <= 1
  /\ exists bits1 bits2,
       _encode_bitstream (1 # 2) 0 1 3 = Ok bits1
       /\ _encode_bitstream (3 # 4) 0 1 3 = Ok bits2
       /\ (horner bits1 0 <= horner bits2 0)%Z.
Proof.
  assert (H1 : 0 <= 1 # 2) by lra.
  assert (H2 : 1 # 2 <= 3 # 4) by lra.
  assert (H3 : 3 # 4 <= 1) by lra.
  split; [exact H1|]. split; [exact H2|]. split; [exact H3|].
  exact (_encode_bitstream_monotone (1 # 2) (3 # 4) 0 1 3 H1 H2 H3).
Defined.

Lemma encode_prefix_witness :
  valid_codec geo5 /\ valid_codec geo /\ (precision geo5 <= precision geo)%Z
  /\ in_range willis_lat willis_lon
  /\ exists code code' suffix,
       encode geo5 willis_lat willis_lon = Ok code
       /\ encode geo willis_lat willis_lon = Ok code'
       /\ code' = (code ++ suffix)%string.
Proof.
  assert (Hc5 : valid_codec geo5) by (unfold valid_codec, geo5; simpl; lia).
  assert (Hc : valid_codec geo) by (unfold valid_codec, geo; simpl; lia).
  assert (Hle : (precision geo5 <= precision geo)%Z) by (simpl; lia).
  assert (Hr : in_range willis_lat willis_lon)
    by (unfold in_range, willis_lat, willis_lon; lra).
  repeat (split; [assumption|]).
  exact (encode_prefix geo5 geo willis_lat willis_lon Hc5 Hc Hle Hr).
Defined.

Lemma _get_cell_size_shape_witness :
  (0 <= 6 <= 12)%Z /\ Z.even 6 = true
  /\ snd (_get_cell_size 6) == 2 * fst (_get_cell_size 6)
  /\ (0 <= 5 <= 12)%Z /\ Z.odd 5 = true
  /\ snd (_get_cell_size 5) == fst (_get_cell_size 5).
Proof.
  assert (H6 : (0 <= 6 <= 12)%Z) by lia.
  assert (H5 : (0 <= 5 <= 12)%Z) by lia.
  split; [exact H6|]. split; [reflexivity|].
  split; [exact (proj1 (proj2 (proj2 (_get_cell_size_shape 6 H6))) eq_refl)|].
  split; [exact H5|]. split; [reflexivity|].
  exact (proj2 (proj2 (proj2 (_get_cell_size_shape 5 H5))) eq_refl).
Defined.

Lemma neighbors_are_adjacent_cells_witness :
  valid_codec geo1
  /\ decode geo1 "s" = Ok (360 # 16, 1440 # 64)
  /\ exists nbrs, get_neighbors geo1 "s" = Ok nbrs.
Proof.
  assert (Hd : decode geo1 "s" = Ok (360 # 16, 1440 # 64))
    by (vm_compute; reflexivity).
  assert (Hc : valid_codec geo1) by (unfold valid_codec, geo1; simpl; lia).
  split; [exact Hc|]. split; [exact Hd|].
  destruct (neighbors_are_adjacent_cells geo1 "s" _ _ Hc Hd) as (nbrs & Hn & _).
  exists nbrs. exact Hn.
Defined.

Lemma pole_neighbors_degenerate_witness :
  valid_codec geo1
  /\ decode geo1 "z" = Ok (540 # 8, 2520 # 16)
  /\ 90 < (540 # 8) + fst (_get_cell_size (len (list_ascii_of_string "z")))
  /\ exists nbrs,
       get_neighbors geo1 "z" = Ok nbrs
       /\ dict_get nbrs "n" = Some "z"%string
       /\ dict_get nbrs "ne" = dict_get nbrs "e".
Proof.
  assert (Hd : decode geo1 "z" = Ok (540 # 8, 2520 # 16))
    by (vm_compute; reflexivity).
  assert (Ht : 90 < (540 # 8)
                    + fst (_get_cell_size (len (list_ascii_of_string "z"))))
    by (vm_compute; reflexivity).
  assert (Hc : valid_codec geo1) by (unfold valid_codec, geo1; simpl; lia).
  split; [exact Hc|]. split; [exact Hd|]. split; [exact Ht|].
  destruct (pole_neighbors_degenerate geo1 "z" _ _ Hc Hd)
    as (nbrs & Hn & Hnorth & _).
  destruct (Hnorth Ht) as (H1 & H2 & _).
  exists nbrs. repeat split; assumption.
Defined.

Lemma neighbor_roundtrip_witness :
  valid_codec geo1
  /\ decode geo1 "s" = Ok (360 # 16, 1440 # 64)
  /\ (360 # 16) + fst (_get_cell_size (len (list_ascii_of_string "s"))) <= 90
  /\ (exists nbrs',
        get_neighbors geo1 "t" = Ok nbrs'
        /\ dict_get nbrs' "w" = Some "s"%string)
  /\ (exists nbrs',
        get_neighbors geo1 "u" = Ok nbrs'
        /\ dict_get nbrs' "s" = Some "s"%string).
Proof.
  assert (Hd : decode geo1 "s" = Ok (360 # 16, 1440 # 64))
    by (vm_compute; reflexivity).
  assert (Hin : (360 # 16)
                + fst (_get_cell_size (len (list_ascii_of_string "s"))) <= 90)
    by (vm_compute; discriminate).
  assert (Hg : get_neighbors geo1 "s"
               = Ok [ ("n", "u"); ("s", "k"); ("e", "t"); ("w", "e");
                      ("ne", "v"); ("se", "m"); ("nw", "g");
                      ("sw", "7") ]%string)
    by (vm_compute; reflexivity).
  assert (Hc : valid_codec geo1) by (unfold valid_codec, geo1; simpl; lia).
  split; [exact Hc|]. split; [exact Hd|]. split; [exact Hin|].
  destruct (neighbor_roundtrip geo1 "s" _ _ Hc Hd)
    as (nbrs & Hn & He & _ & Hns & _).
  rewrite Hg in Hn. injection Hn as <-.
  split; [exact (He "t"%string eq_refl)|].
  exact (Hns Hin "u"%string eq_refl).
Defined.

Lemma diagonal_neighbors_compose_witness :
  valid_codec geo1 /\ valid_code geo1 "s"
  /\ walk geo1 ["n"; "e"]%string "s" = walk geo1 ["ne"]%string "s"
  /\ walk geo1 ["e"; "n"]%string "s" = walk geo1 ["ne"]%string "s".
Proof.
  assert (Hv : valid_code geo1 "s") by (unfold valid_code; split; reflexivity).
  assert (Hc : valid_codec geo1) by (unfold valid_codec, geo1; simpl; lia).
  split; [exact Hc|]. split; [exact Hv|].
  destruct (diagonal_neighbors_compose geo1 "s" Hc Hv) as (H1 & H2 & _).
  split; assumption.
Defined.

Lemma encode_range_corners_witness :
  valid_codec geo5
  /\ encode geo5 (-90) (-180) = Ok "00000"%string
  /\ encode geo5 90 180 = Ok "zzzzz"%string.
Proof.
  assert (Hc : valid_codec geo5) by (unfold valid_codec, geo5; simpl; lia).
  split; [exact Hc|].
  exact (encode_range_corners geo5 Hc).
Defined.

Local Close Scope Q_scope.
